(** * agenticSeek: task routing and multi-agent collaboration core

    A shallow embedding of [sources/router.py] (collaboration detector,
    task decomposer, complexity estimation) and of
    [sources/agents/collaborative_agent.py] (shared context, the four
    execution modes of [CollaborativeAgent]) together with the properties
    the specification states about them.

    Conventions of the embedding.
    - A Python [str] is a [string] holding its UTF-8 bytes.  [str.lower()]
      and [str.strip()] act on the ASCII range; this agrees with Python on
      every text whose non-ASCII characters are caseless and are not
      white space (CJK ideographs in particular).  Because UTF-8 is
      self-synchronising, the substring test on bytes agrees with the one
      on code points.
    - A Python [float] (a classifier confidence, a wall-clock reading) is a
      rational number [Q]; every finite float is one, and [0.5] is exact.
    - A Python [dict] read in insertion order is an association list with
      in-place update.
    - Workers, the clock and the classifiers are external collaborators:
      they are parameters of the sections, acting on an abstract world. *)

From Stdlib Require Import Ascii String QArith Qminmax.
From stdpp Require Import gmap strings list pretty sorting.

Open Scope string_scope.
Open Scope list_scope.

(** ** Python string primitives *)

Module PyStr.

Definition nl : string := String (Ascii.ascii_of_nat 10) "".

(** [c.lower()] on one ASCII character. *)
Definition lower_ascii (c : ascii) : ascii :=
  let n := Ascii.nat_of_ascii c in
  if (65 <=? n)%nat && (n <=? 90)%nat then Ascii.ascii_of_nat (n + 32) else c.

(** [s.lower()] *)
Fixpoint lower (s : string) : string :=
  match s with
  | EmptyString => EmptyString
  | String c s' => String (lower_ascii c) (lower s')
  end.

(** [s.startswith(p)] *)
Fixpoint startswith (p s : string) : bool :=
  match p, s with
  | EmptyString, _ => true
  | String a p', String b s' => Ascii.eqb a b && startswith p' s'
  | String _ _, EmptyString => false
  end.

(** [p in s] *)
Fixpoint contains (p s : string) : bool :=
  startswith p s ||
  match s with
  | EmptyString => false
  | String _ s' => contains p s'
  end.

(** The white space [str.strip()] removes, within ASCII: tab, line feed,
    vertical tab, form feed, carriage return, the four separators
    0x1c-0x1f and the space. *)
Definition is_space (c : ascii) : bool :=
  let n := Ascii.nat_of_ascii c in
  ((9 <=? n)%nat && (n <=? 13)%nat) || ((28 <=? n)%nat && (n <=? 32)%nat).

Fixpoint lstrip (s : string) : string :=
  match s with
  | EmptyString => EmptyString
  | String c s' => if is_space c then lstrip s' else s
  end.

Fixpoint rstrip (s : string) : string :=
  match s with
  | EmptyString => EmptyString
  | String c s' =>
      match rstrip s' with
      | EmptyString => if is_space c then EmptyString else String c EmptyString
      | r => String c r
      end
  end.

(** [s.strip()] *)
Definition strip (s : string) : string := rstrip (lstrip s).

(** [s.split(sep)] for a one-character separator: never the empty list,
    and empty pieces are kept. *)
Fixpoint split (sep : ascii) (s : string) : list string :=
  match s with
  | EmptyString => [EmptyString]
  | String c s' =>
      if Ascii.eqb c sep then EmptyString :: split sep s'
      else match split sep s' with
           | piece :: rest => String c piece :: rest
           | [] => [String c EmptyString]
           end
  end.

(** Truthiness of a string: [bool(s)]. *)
Definition truthy (s : string) : bool :=
  match s with EmptyString => false | _ => true end.

(** [any(w in s for w in words)] *)
Definition any_in (words : list string) (s : string) : bool :=
  existsb (fun w => contains w s) words.

(** A character that is neither white space nor a full stop, and the
    strings that hold one. *)
Definition solid (c : ascii) : bool := negb (is_space c) && negb (Ascii.eqb c ".").

Fixpoint has_solid (s : string) : bool :=
  match s with
  | EmptyString => false
  | String c s' => solid c || has_solid s'
  end.

End PyStr.

(** ** The collaboration detector ([MVPCollaborationDetector]) *)

Module Detector.
Import PyStr.

Definition collaboration_keywords : list string :=
  [ "and then"; "then"; "after"; "next"; "followed by";
    "and also"; "also"; "and"; "both"; "simultaneously";
    "然後"; "接著"; "之後"; "再"; "先";
    "並且"; "同時"; "還要"; "也要"; "一起" ].

Definition action_words : list string :=
  [ "search"; "find"; "write"; "create"; "build"; "make";
    "analyze"; "download"; "save"; "send"; "read"; "process";
    "搜尋"; "查找"; "寫"; "創建"; "建立"; "製作";
    "分析"; "下載"; "保存"; "發送"; "讀取"; "處理" ].

Definition exclusion_words : list string :=
  [ "only"; "just"; "simply"; "single"; "alone";
    "只"; "僅"; "單純"; "單獨"; "獨自" ].

Definition strong_keywords : list string :=
  [ "and then"; "然後"; "接著"; "and also"; "並且"; "同時" ].

Definition detect_collaborative_task (text : string) : bool :=
  let text_lower := lower text in
  if any_in exclusion_words text_lower then false
  else
    let found_keywords :=
      List.filter (fun keyword => contains keyword text_lower) collaboration_keywords in
    let action_count :=
      length (List.filter (fun word => contains word text_lower) action_words) in
    if negb (match found_keywords with [] => true | _ => false end)
       && (2 <=? action_count)%nat then true
    else if any_in strong_keywords text_lower then true
    else if (3 <=? action_count)%nat then true
    else false.

End Detector.

(** ** Data model ([collaborative_agent.py], lines 20-50) *)

Inductive CollaborationMode := SEQUENTIAL | PARALLEL | PIPELINE | COMPETITIVE.

Record AgentTask := mkAgentTask {
  task_id : string;
  agent_type : string;
  description : string;
  dependencies : list string;
  priority : Z;
  timeout : Z;
  retry_count : Z;
  max_retries : Z
}.

(** [AgentTask(task_id=.., agent_type=.., description=.., dependencies=..)]
    with the dataclass defaults of the remaining fields. *)
Definition new_task (id ty desc : string) (deps : list string) : AgentTask :=
  mkAgentTask id ty desc deps 1 300 0 2.

Definition set_retry_count (n : Z) (t : AgentTask) : AgentTask :=
  mkAgentTask (task_id t) (agent_type t) (description t) (dependencies t)
              (priority t) (timeout t) n (max_retries t).

Definition set_timeout (n : Z) (t : AgentTask) : AgentTask :=
  mkAgentTask (task_id t) (agent_type t) (description t) (dependencies t)
              (priority t) n (retry_count t) (max_retries t).

Record TaskResult := mkTaskResult {
  res_task_id : string;
  res_agent_type : string;
  success : bool;
  result : string;
  reasoning : string;
  execution_time : Q;
  error_message : option string
}.

(** ** The task decomposer ([router.py], lines 615-676) *)

Module Decomposer.
Import PyStr.

Definition code_keywords : list string :=
  [ "write"; "code"; "script"; "program"; "debug"; "create app" ].
Definition web_keywords : list string :=
  [ "search"; "browse"; "web"; "find online"; "look up" ].
Definition files_keywords : list string :=
  [ "file"; "folder"; "directory"; "save"; "organize" ].

Definition detect_task_type (text : string) : string :=
  let text_lower := lower text in
  if any_in code_keywords text_lower then "code"
  else if any_in web_keywords text_lower then "web"
  else if any_in files_keywords text_lower then "files"
  else "talk".

(** The body of the [for sentence in sentences] loop, with the running
    counter [task_id] and the list [tasks] built so far. *)
Fixpoint decompose_loop (sentences : list string) (task_id : nat)
         (tasks : list AgentTask) : list AgentTask :=
  match sentences with
  | [] => tasks
  | sentence :: rest =>
      let sentence := strip sentence in
      if negb (truthy sentence) then decompose_loop rest task_id tasks
      else
        let agent_type := detect_task_type sentence in
        if truthy agent_type then
          let task :=
            mkAgentTask ("task_" +:+ pretty task_id) agent_type sentence [] 1 300 0 2 in
          decompose_loop rest (S task_id) (tasks ++ [task])
        else decompose_loop rest task_id tasks
  end.

Definition decompose_collaborative_task (text : string) : list AgentTask :=
  decompose_loop (split "." text) 0 [].

(** The sub-task the loop builds for the [i]-th clause it keeps. *)
Definition clause_task (i : nat) (clause : string) : AgentTask :=
  mkAgentTask ("task_" +:+ pretty i) (detect_task_type clause) clause [] 1 300 0 2.

End Decomposer.

(** ** Complexity estimation ([router.py], lines 406-431) *)

Module Complexity.

(** What [complexity_classifier.predict(text)] does: it raises, or it
    returns a list of (label, confidence) pairs. *)
Inductive Prediction :=
| PredictRaised (msg : string)
| Predicted (predictions : list (string * Q)).

(** [sorted(predictions, key=lambda x: x[1], reverse=True)]: a stable
    sort by decreasing confidence; of equal confidences the one that
    came first stays first. *)
Fixpoint insert_desc (p : string * Q) (l : list (string * Q)) : list (string * Q) :=
  match l with
  | [] => [p]
  | q :: l' => if Qle_bool (snd q) (snd p) then p :: q :: l' else q :: insert_desc p l'
  end.

Definition sorted_desc (l : list (string * Q)) : list (string * Q) :=
  foldr insert_desc [] l.

Definition Qlt_bool (x y : Q) : bool := negb (Qle_bool y x).

Definition estimate_complexity (predict : string -> Prediction) (text : string) : string :=
  match predict text with
  | PredictRaised _ => "LOW"
  | Predicted predictions =>
      let predictions := sorted_desc predictions in
      match predictions with
      | [] => "LOW"
      | (complexity, confidence) :: _ =>
          if Qlt_bool confidence (1 # 2) then "HIGH"
          else if String.eqb complexity "HIGH" then "HIGH"
          else if String.eqb complexity "LOW" then "LOW"
          else "LOW"
      end
  end.

End Complexity.

(** ** The shared context ([SharedContext], lines 53-81) *)

Module SharedContext.

(** The values the scheduler stores: a worker's answer (a [str]) and its
    success flag (a [bool]). *)
Inductive Value := VStr (s : string) | VBool (b : bool).

(** [self.data]: a dict, read in insertion order by the prompt builder. *)
Definition Dict := list (string * Value).

(** [self.data.get(key, None)] *)
Fixpoint get (key : string) (data : Dict) : option Value :=
  match data with
  | [] => None
  | (k, v) :: data' => if String.eqb k key then Some v else get key data'
  end.

(** [self.data[key] = value]: an existing key keeps its position. *)
Fixpoint set (key : string) (value : Value) (data : Dict) : Dict :=
  match data with
  | [] => [(key, value)]
  | (k, v) :: data' =>
      if String.eqb k key then (k, value) :: data' else (k, v) :: set key value data'
  end.

(** [self.data.update(updates)] *)
Definition update (updates : Dict) (data : Dict) : Dict :=
  foldl (fun d kv => set (fst kv) (snd kv) d) data updates.

(** [self.data.copy()]: values are immutable, a copy is the value itself. *)
Definition get_all (data : Dict) : Dict := data.

End SharedContext.

(** ** The collaboration scheduler ([CollaborativeAgent], lines 84-301) *)

Module Scheduler.
Import PyStr SharedContext.

(** What [await agent.process(prompt, None)] followed by reading
    [agent.get_success] yields: an exception, or an answer, a reasoning
    trace and the success flag. *)
Inductive Outcome :=
| Raised (msg : string)
| Returned (answer reasoning : string) (get_success : bool).

(** A worker acts on the world outside the scheduler. *)
Definition Agent (World : Type) := string -> World -> Outcome * World.

(** [time.time()] *)
Class Clock (World : Type) := time_time : World -> Q * World.

(** The fields of [self] that are fixed after [__init__]. *)
Record CollaborativeAgent (World : Type) := mkCollaborativeAgent {
  agents : gmap string (Agent World);
  max_parallel_tasks : nat
}.
Arguments agents {World} _.
Arguments max_parallel_tasks {World} _.

(** The call [agent.process(prompt, None)] made for a task, as observed
    from outside. *)
Inductive Event := Invoke (task_id agent_type prompt : string).

(** The mutable state a scheduling run threads: the shared context, the
    world of the workers and the clock, and the calls made so far. *)
Record Sched (World : Type) := mkSched {
  shared_context : Dict;
  world : World;
  events : list Event
}.
Arguments mkSched {World} _ _ _.
Arguments shared_context {World} _.
Arguments world {World} _.
Arguments events {World} _.

(** [f"{value}"] *)
Definition format_value (v : Value) : string :=
  match v with
  | VStr s => s
  | VBool true => "True"
  | VBool false => "False"
  end.

Definition _prepare_task_prompt (task : AgentTask) (context_data : Dict) : string :=
  let prompt := "Task: " +:+ description task +:+ nl +:+ nl in
  let prompt :=
    match context_data with
    | [] => prompt
    | _ :: _ =>
        let prompt := prompt +:+ "Available context from previous tasks:" +:+ nl in
        let prompt :=
          foldl (fun prompt kv =>
                   let key := fst kv in
                   let value :=
                     match snd kv with
                     | VStr s =>
                         if (200 <? String.length s)%nat
                         then VStr (substring 0 200 s +:+ "...")
                         else VStr s
                     | v => v
                     end in
                   prompt +:+ "- " +:+ key +:+ ": " +:+ format_value value +:+ nl)
                prompt context_data in
        prompt +:+ nl
    end in
  prompt +:+ "Please complete this task using the available context information.".

(** The keys a finished task is written under:
    [f"task_{task.task_id}_result"] and [f"task_{task.task_id}_success"]. *)
Definition result_key (task : AgentTask) : string :=
  "task_" +:+ task_id task +:+ "_result".
Definition success_key (task : AgentTask) : string :=
  "task_" +:+ task_id task +:+ "_success".

(** The [TaskResult] of the [except] branch. *)
Definition failed_result (task : AgentTask) (execution_time : Q) (error_msg : string)
  : TaskResult :=
  mkTaskResult (task_id task) (agent_type task) false "" "" execution_time (Some error_msg).

Section WithWorld.
Context {World : Type} `{Clock World}.
Variable self : CollaborativeAgent World.

Definition execute_task (task : AgentTask) (context_data : Dict) (s : Sched World)
  : TaskResult * Sched World :=
  let '(start_time, w) := time_time (world s) in
  match agents self !! agent_type task with
  | None =>
      (* raise ValueError(f"Agent type {task.agent_type} not available") *)
      let '(now, w) := time_time w in
      (failed_result task (now - start_time)%Q
         ("Agent type " +:+ agent_type task +:+ " not available"),
       mkSched (shared_context s) w (events s))
  | Some agent =>
      let prompt := _prepare_task_prompt task context_data in
      let events := (events s ++ [Invoke (task_id task) (agent_type task) prompt])%list in
      match agent prompt w with
      | (Returned result reasoning get_success, w) =>
          let '(now, w) := time_time w in
          let task_result :=
            mkTaskResult (task_id task) (agent_type task) get_success
                         result reasoning (now - start_time)%Q None in
          let data := set (result_key task) (VStr result) (shared_context s) in
          let data := set (success_key task) (VBool get_success) data in
          (task_result, mkSched data w events)
      | (Raised error_msg, w) =>
          let '(now, w) := time_time w in
          (failed_result task (now - start_time)%Q error_msg,
           mkSched (shared_context s) w events)
      end
  end.

(** What the worker called by [execute_task task context_data] from
    state [s] yields; [None] when the capability has no worker and no
    call is made. *)
Definition worker_outcome (task : AgentTask) (context_data : Dict) (s : Sched World)
  : option Outcome :=
  let '(_, w) := time_time (world s) in
  agent ← agents self !! agent_type task;
  Some (agent (_prepare_task_prompt task context_data) w).1.

(** The body of the loop of [execute_sequential]: one attempt and, when
    it failed and the retry budget allows, one more with the same
    [context_data], whose result replaces the first.  The task comes
    back with the retry counter the loop has incremented. *)
Definition sequential_step (task : AgentTask) (s : Sched World)
  : TaskResult * AgentTask * Sched World :=
  let context_data := get_all (shared_context s) in
  let '(result, s) := execute_task task context_data s in
  if negb (success result) && (retry_count task <? max_retries task)%Z then
    let task := set_retry_count (retry_count task + 1) task in
    let '(retry_result, s) := execute_task task context_data s in
    (retry_result, task, s)
  else (result, task, s).

(** [execute_sequential]: the steps in list order, each from the state
    the one before has left. *)
Fixpoint execute_sequential (tasks : list AgentTask) (s : Sched World)
  : list TaskResult * list AgentTask * Sched World :=
  match tasks with
  | [] => ([], [], s)
  | task :: rest =>
      let '(result, task, s) := sequential_step task s in
      let '(results, tasks', s) := execute_sequential rest s in
      (result :: results, task :: tasks', s)
  end.

(** *** Pipeline mode *)

(** [{task.task_id: task for task in tasks}]: a later task replaces an
    earlier one with the same id. *)
Definition task_dict (tasks : list AgentTask) : gmap string AgentTask :=
  foldl (fun d task => <[task_id task := task]> d) ∅ tasks.

(** [for x in xs: visit(x)] on the state of the traversal; a budget
    that ran out stays so. *)
Definition for_each {St : Type} (visit : string -> St -> option St)
           (xs : list string) (st : option St) : option St :=
  foldl (fun st x => st ≫= visit x) st xs.

(** The nested function [visit], acting on [visited] and [result].
    [depth] bounds the nesting of the recursive calls; [None] is a
    budget that ran out.  (The recursion limit of the Python interpreter
    is not modelled.) *)
Fixpoint visit (depth : nat) (task_dict : gmap string AgentTask) (tid : string)
         (st : gset string * list AgentTask) : option (gset string * list AgentTask) :=
  match depth with
  | O => None
  | S depth =>
      let '(visited, result) := st in
      if decide (tid ∈ visited) then Some (visited, result)
      else
        let visited := visited ∪ {[tid]} in
        match task_dict !! tid with
        | Some task =>
            '(visited, result) ←
              for_each (visit depth task_dict) (dependencies task)
                       (Some (visited, result));
            Some (visited, (result ++ [task])%list)
        | None => Some (visited, result)
        end
  end.

(** More than [len(tasks)] nested calls are never needed (see
    [sort_terminates]). *)
Definition _sort_tasks_by_dependencies (tasks : list AgentTask)
  : option (list AgentTask) :=
  let task_dict := task_dict tasks in
  snd <$> for_each (visit (S (length tasks)) task_dict) (map task_id tasks)
                   (Some (∅, [])).

(** The tasks of a list whose id lies in a set [X], in list order. *)
Definition tasks_with_id_in (X : gset string) (tasks : list AgentTask)
  : list AgentTask :=
  filter (fun t => task_id t ∈ X) tasks.

(** How a later state of the traversal of [tasks] relates to an earlier
    one: ids are only added to [visited], and [result] grows by the
    tasks whose ids were added, each once. *)
Definition extends (tasks : list AgentTask)
           (st st' : gset string * list AgentTask) : Prop :=
  st.1 ⊆ st'.1 /\
  exists new, st'.2 = (st.2 ++ new)%list /\
              new ≡ₚ tasks_with_id_in (st'.1 ∖ st.1) tasks.

Definition execute_pipeline (tasks : list AgentTask) (s : Sched World)
  : option (list TaskResult * list AgentTask * Sched World) :=
  sorted_tasks ← _sort_tasks_by_dependencies tasks;
  Some (execute_sequential sorted_tasks s).

(** *** Parallel mode *)

(** The coroutines [execute_with_semaphore(task)] that [asyncio.gather]
    runs.  The semaphore admits [max_parallel_tasks] of them at a time;
    the event loop is free to serve them in any order.  Here each
    admitted coroutine runs to completion before the next one starts,
    in the order [order] lists their positions; every one of them is
    handed the same [context_data].  A position met in [order] yields
    its outcome: a [TaskResult], or the message of an exception that
    escaped [execute_task] (there is none: its handler catches all). *)
Fixpoint run_concurrently (context_data : Dict) (tasks : list AgentTask)
         (order : list nat) (s : Sched World)
  : list (nat * (TaskResult + string)) * Sched World :=
  match order with
  | [] => ([], s)
  | i :: order' =>
      match tasks !! i with
      | Some task =>
          let '(r, s) := execute_task task context_data s in
          let '(finished, s) := run_concurrently context_data tasks order' s in
          ((i, inl r) :: finished, s)
      | None => run_concurrently context_data tasks order' s
      end
  end.

Definition outcome_at (i : nat) (finished : list (nat * (TaskResult + string)))
  : option (TaskResult + string) :=
  snd <$> List.find (fun p => (fst p =? i)%nat) finished.

(** The state in which the coroutine at each position is served. *)
Fixpoint turn_states (context_data : Dict) (tasks : list AgentTask)
         (order : list nat) (s : Sched World) : list (nat * Sched World) :=
  match order with
  | [] => []
  | i :: order' =>
      match tasks !! i with
      | Some task =>
          (i, s) :: turn_states context_data tasks order'
                      (execute_task task context_data s).2
      | None => turn_states context_data tasks order' s
      end
  end.

Definition turn_state (context_data : Dict) (tasks : list AgentTask)
           (order : list nat) (s : Sched World) (i : nat) : option (Sched World) :=
  snd <$> List.find (fun p => (fst p =? i)%nat) (turn_states context_data tasks order s).

(** What the worker of the task at position [i] yields when its turn
    comes; [None] when its capability has no worker. *)
Definition batch_outcome (context_data : Dict) (tasks : list AgentTask)
           (order : list nat) (s : Sched World) (i : nat) : option Outcome :=
  task ← tasks !! i;
  st ← turn_state context_data tasks order s i;
  worker_outcome task context_data st.

(** The worker calls of a batch, in the order they are made: one per
    position whose capability has a worker. *)
Definition batch_calls (context_data : Dict) (tasks : list AgentTask)
           (order : list nat) : list Event :=
  omap (fun i =>
          task ← tasks !! i;
          _ ← agents self !! agent_type task;
          Some (Invoke (task_id task) (agent_type task)
                       (_prepare_task_prompt task context_data)))
       order.

(** [execute_parallel]: [None] stands for a batch that never completes,
    because a coroutine is never served or the semaphore has no slot. *)
Definition execute_parallel (order : list nat) (tasks : list AgentTask) (s : Sched World)
  : option (list TaskResult * Sched World) :=
  let context_data := get_all (shared_context s) in
  if (max_parallel_tasks self =? 0)%nat && negb (length tasks =? 0)%nat then None
  else
    let '(finished, s) := run_concurrently context_data tasks order s in
    results ← mapM (fun i => outcome_at i finished) (seq 0 (length tasks));
    let task_results :=
      zip_with (fun task result =>
                  match result with
                  | inr e =>
                      mkTaskResult (task_id task) (agent_type task) false "" "" 0 (Some e)
                  | inl r => r
                  end) tasks results in
    Some (task_results, s).

(** *** Competitive mode *)

(** [min(results, key=lambda x: x.execution_time)] on a list with first
    element [best]: the first of the minimal elements. *)
Fixpoint min_by_time (best : TaskResult) (rest : list TaskResult) : TaskResult :=
  match rest with
  | [] => best
  | r :: rest' =>
      min_by_time (if Complexity.Qlt_bool (execution_time r) (execution_time best)
                   then r else best) rest'
  end.

(** One task per candidate capability, all with the same description. *)
Definition competitive_tasks (task_description : string) (agent_types : list string)
  : list AgentTask :=
  imap (fun i agent_type =>
          new_task ("competitive_" +:+ pretty i) agent_type task_description [])
       agent_types.

(** [execute_competitive]; the inner [option] is Python's [None]. *)
Definition execute_competitive (order : list nat) (task_description : string)
           (agent_types : list string) (s : Sched World)
  : option (option TaskResult * Sched World) :=
  let tasks := competitive_tasks task_description agent_types in
  '(results, s) ← execute_parallel order tasks s;
  let successful_results := List.filter success results in
  match successful_results with
  | r :: rest => Some (Some (min_by_time r rest), s)
  | [] => Some (head results, s)
  end.

End WithWorld.

End Scheduler.

(** ** The router ([AgentRouter], lines 20-37 and 433-613) *)

Module Router.
Import PyStr SharedContext Scheduler.

(** The attributes of a worker the router reads, and its [process]. *)
Record RoutedAgent (World : Type) := mkRoutedAgent {
  agent_name : string;
  role : string;
  type_ : string;
  process : Agent World
}.
Arguments agent_name {World} _.
Arguments role {World} _.
Arguments type_ {World} _.
Arguments process {World} _.

(** [self] of the router.  The classifiers and the language utility are
    external: [complexity_predict] is [complexity_classifier.predict];
    [router_vote] stands for the vote of the two capability classifiers
    (lines 375-395), [None] when it raises. *)
Record AgentRouter (World : Type) := mkAgentRouter {
  router_agents : list (RoutedAgent World);
  complexity_predict : string -> Complexity.Prediction;
  detect_language : string -> string;
  translate : string -> string -> string;
  router_vote : string -> list string -> option string
}.
Arguments router_agents {World} _.
Arguments complexity_predict {World} _.
Arguments detect_language {World} _.
Arguments translate {World} _.
Arguments router_vote {World} _.

(** What [select_agent] hands back: a worker, the wrapper object whose
    [process] runs [execute_collaborative_task], Python's [None], or an
    exception. *)
Inductive Selection (World : Type) :=
| SelectedAgent (a : RoutedAgent World)
| CollaborativeTaskAgent
| SelectedNone
| SelectionRaised (msg : string).
Arguments SelectedAgent {World} _.
Arguments CollaborativeTaskAgent {World}.
Arguments SelectedNone {World}.
Arguments SelectionRaised {World} _.

Section WithWorld.
Context {World : Type} `{Clock World}.
Variable self : AgentRouter World.

(** [CollaborativeAgent({agent.role: agent for agent in agents},
    max_parallel_tasks=3)] *)
Definition collaborative_agent : CollaborativeAgent World :=
  mkCollaborativeAgent World
    (foldl (fun d a => <[role a := process a]> d) ∅ (router_agents self)) 3.

Definition find_first_sentence (text : string) : string :=
  match split (Ascii.ascii_of_nat 10) text with
  | line :: _ => strip line
  | [] => text
  end.

Definition find_planner_agent : option (RoutedAgent World) :=
  List.find (fun a => String.eqb (type_ a) "planner_agent") (router_agents self).

Definition select_agent (text : string) : Selection World :=
  match router_agents self with
  | [] => SelectionRaised "No agents available."
  | [a] => SelectedAgent a
  | _ =>
      if Detector.detect_collaborative_task text then CollaborativeTaskAgent
      else
        let lang := detect_language self text in
        let text := find_first_sentence text in
        let text := translate self text lang in
        let labels := map role (router_agents self) in
        let complexity :=
          Complexity.estimate_complexity (complexity_predict self) text in
        if String.eqb complexity "HIGH" then
          match find_planner_agent with
          | Some a => SelectedAgent a
          | None => SelectedNone
          end
        else
          match router_vote self text labels with
          | None => SelectionRaised "router_vote"
          | Some best_agent =>
              match List.find (fun a => String.eqb best_agent (role a))
                              (router_agents self) with
              | Some a => SelectedAgent a
              | None => SelectedNone
              end
          end
  end.

(** [execute_collaborative_task]: the inner [option] of the result is
    Python's [None]; a list entry is [None] when [execute_competitive]
    returned [None].  [order] is the service order of a parallel batch. *)
Definition execute_collaborative_task (order : list nat) (text : string)
           (mode : CollaborationMode) (s : Sched World)
  : option (option (list (option TaskResult)) * Sched World) :=
  let tasks := Decomposer.decompose_collaborative_task text in
  match tasks with
  | [] => Some (None, s)
  | _ :: _ =>
      let sequential : option (option (list (option TaskResult)) * Sched World) :=
        let '(results, _, s) := execute_sequential collaborative_agent tasks s in
        Some (Some (map Some results), s) in
      match mode with
      | PARALLEL =>
          '(results, s) ← execute_parallel collaborative_agent order tasks s;
          Some (Some (map Some results), s)
      | PIPELINE =>
          '(results, _, s) ← execute_pipeline collaborative_agent tasks s;
          Some (Some (map Some results), s)
      | COMPETITIVE =>
          let agent_types :=
            elements (list_to_set (map agent_type tasks) : gset string) in
          if (1 <? length agent_types)%nat then
            '(best, s) ← execute_competitive collaborative_agent order text agent_types s;
            Some (Some [best], s)
          else sequential
      | SEQUENTIAL => sequential
      end
  end.

(** [CollaborativeTaskAgent.process(prompt, speech_module)] *)
Definition collaborative_process (order : list nat) (prompt : string) (s : Sched World)
  : option (option (list (option TaskResult)) * Sched World) :=
  execute_collaborative_task order prompt SEQUENTIAL s.

End WithWorld.

End Router.

(** ** A concrete world *)

Module Examples.
Import SharedContext Scheduler.

(** The world is the wall clock, in seconds. *)
Definition world_clock : Clock Q := fun now => (now, now).

(** A worker that takes [seconds] and then yields [outcome]. *)
Definition worker (seconds : Q) (outcome : Outcome) : Agent Q :=
  fun _ now => (outcome, (now + seconds)%Q).

Definition registry : gmap string (Agent Q) :=
  <["code" := worker 1 (Returned "print(42)" "wrote the script" true)]>
  (<["web" := worker 2 (Raised "connection refused")]>
  (<["files" := worker 3 (Returned "" "nothing found" false)]>
  (<["plan" := worker 1000 (Returned "the plan" "thought it through" true)]> ∅))).

Definition scheduler : CollaborativeAgent Q := mkCollaborativeAgent Q registry 3.

Definition initial : Sched Q := mkSched [] 0%Q [].

Definition look_up : AgentTask := new_task "A" "web" "look up the weather" [].
Definition write_it : AgentTask := new_task "B" "code" "write the script" [].
Definition find_notes : AgentTask := new_task "C" "files" "find the notes" [].
Definition make_plan : AgentTask := new_task "D" "plan" "plan the trip" [].

(** A router over two workers. *)
Definition router : Router.AgentRouter Q :=
  Router.mkAgentRouter Q
    [ Router.mkRoutedAgent Q "Coder" "code" "code_agent"
        (worker 1 (Returned "print(42)" "wrote the script" true));
      Router.mkRoutedAgent Q "Jarvis" "talk" "casual_agent"
        (worker 1 (Returned "hello" "greeted" true)) ]
    (fun _ => Complexity.Predicted [("LOW", 9 # 10)])
    (fun _ => "en")
    (fun text _ => text)
    (fun _ _ => Some "talk").

End Examples.

(** ** The capability vote ([router.py], lines 364-395) *)

Module Vote.

(** The exceptions the vote can end in: an index past the end of a list,
    a division by zero, or whatever a classifier raised. *)
Inductive Error :=
| IndexError
| ZeroDivisionError
| ClassifierError (msg : string).

(** What [self.pipelines['bart'](text, labels)] yields: it raises, or it
    returns its labels and their scores, best first. *)
Inductive BartResult :=
| BartRaised (msg : string)
| BartReturned (labels : list string) (scores : list Q).

(** [len(text)]: the number of characters of a text held as UTF-8, that
    is of its bytes that do not continue a character (0x80-0xBF). *)
Fixpoint len (text : string) : nat :=
  match text with
  | EmptyString => 0
  | String c text' =>
      let n := Ascii.nat_of_ascii c in
      if (128 <=? n)%nat && (n <? 192)%nat then len text' else S (len text')
  end.

(** [l[0]] *)
Definition first_item {A : Type} (l : list A) : A + Error :=
  match l with
  | x :: _ => inl x
  | [] => inr IndexError
  end.

(** [llm_router]: the best prediction of the capability classifier once
    the complexity labels are left out. *)
Definition llm_router (talk_predict : string -> Complexity.Prediction) (text : string)
  : (string * Q) + Error :=
  match talk_predict text with
  | Complexity.PredictRaised msg => inr (ClassifierError msg)
  | Complexity.Predicted predictions =>
      let predictions :=
        List.filter (fun pred => negb (String.eqb (fst pred) "HIGH" || String.eqb (fst pred) "LOW"))
                    predictions in
      let predictions := Complexity.sorted_desc predictions in
      first_item predictions
  end.

(** [router_vote] *)
Definition router_vote (bart : string -> list string -> BartResult)
           (talk_predict : string -> Complexity.Prediction)
           (text : string) (labels : list string) : string + Error :=
  if (len text <=? 8)%nat then inl "talk"
  else
    match bart text labels with
    | BartRaised msg => inr (ClassifierError msg)
    | BartReturned bart_labels bart_scores =>
        match llm_router talk_predict text with
        | inr e => inr e
        | inl (llm_router, confidence_llm_router) =>
            match first_item bart_labels with
            | inr e => inr e
            | inl bart =>
                match first_item bart_scores with
                | inr e => inr e
                | inl confidence_bart =>
                    if Qeq_bool (confidence_bart + confidence_llm_router) 0
                    then inr ZeroDivisionError
                    else
                      let final_score_bart :=
                        (confidence_bart / (confidence_bart + confidence_llm_router))%Q in
                      let final_score_llm :=
                        (confidence_llm_router / (confidence_bart + confidence_llm_router))%Q in
                      if Complexity.Qlt_bool final_score_llm final_score_bart
                      then inl bart else inl llm_router
                end
            end
        end
    end.

End Vote.

(** ** Dependency order *)

Module SortSpec.

(** A list [sorted] respects the dependencies among [tasks]: wherever a
    task stands, every one of its dependencies that is the id of a task
    of [tasks] stands before it. *)
Definition dependencies_first (tasks sorted : list AgentTask) : Prop :=
  forall before task after,
    sorted = before ++ task :: after ->
    forall dep_id, dep_id ∈ dependencies task -> dep_id ∈ map task_id tasks ->
      dep_id ∈ map task_id before.

(** The ids of tasks the traversal has marked visited and not yet
    appended: the tasks it is in the middle of. *)
Definition pending (tasks : list AgentTask) (st : gset string * list AgentTask)
           (x : string) : Prop :=
  x ∈ st.1 /\ x ∈ map task_id tasks /\ x ∉ map task_id st.2.

End SortSpec.

(** * Properties *)

(** ** Strings *)

Section StringFacts.
Import PyStr.

Lemma startswith_lower p s :
  startswith p s = true -> startswith (lower p) (lower s) = true.
Proof.
  revert s; induction p as [|a p IH]; intros [|b s]; simpl; try done.
  intros [Hab Hps]%andb_true_iff.
  apply Ascii.eqb_eq in Hab as ->.
  rewrite Ascii.eqb_refl. simpl. by apply IH.
Qed.

Lemma contains_lower p s :
  contains p s = true -> contains (lower p) (lower s) = true.
Proof.
  induction s as [|b s IH].
  - simpl. rewrite !orb_false_r. apply (startswith_lower p "").
  - cbn [contains]. intros [Hst|Hin]%orb_true_iff.
    + apply (startswith_lower p (String b s)) in Hst.
      cbn [lower contains] in *. apply orb_true_iff. by left.
    + cbn [lower contains]. apply orb_true_iff. right. by apply IH.
Qed.

Lemma any_in_true words s :
  any_in words s = true <-> exists w, In w words /\ contains w s = true.
Proof. unfold any_in. apply existsb_exists. Qed.

Lemma truthy_false s : truthy s = false <-> s = "".
Proof. destruct s; simpl; split; congruence. Qed.

End StringFacts.

(** ** The collaboration detector *)

Section DetectorFacts.
Import PyStr Detector.

Lemma exclusion_words_lower w : In w exclusion_words -> lower w = w.
Proof.
  unfold exclusion_words. simpl.
  intros Hw. repeat (destruct Hw as [<-|Hw]; [reflexivity|]). destruct Hw.
Qed.

Lemma detect_excluded text :
  any_in exclusion_words (lower text) = true ->
  detect_collaborative_task text = false.
Proof. intros Hex. unfold detect_collaborative_task. by rewrite Hex. Qed.

(** C6.  Exclusion precedence: a text in which an exclusion term occurs,
    in any mix of upper and lower case, is never judged collaborative,
    whatever action words and connectives it holds. *)
Theorem exclusion_precedence (text w : string) :
  In w exclusion_words ->
  contains w text = true \/ contains w (lower text) = true ->
  detect_collaborative_task text = false.
Proof.
  intros Hw Hc. apply detect_excluded, any_in_true.
  exists w. split; [done|].
  destruct Hc as [Hc|Hc]; [|done].
  apply contains_lower in Hc. by rewrite (exclusion_words_lower w Hw) in Hc.
Qed.

Lemma exclusion_precedence_witness :
  detect_collaborative_task "JUST search the web and then write code, 只 save it" = false.
Proof.
  apply (exclusion_precedence _ "just").
  - simpl. tauto.
  - right. vm_compute. reflexivity.
Defined.

End DetectorFacts.

(** ** The task decomposer *)

Section DecomposerFacts.
Import PyStr Decomposer.

Lemma detect_task_type_truthy text : truthy (detect_task_type text) = true.
Proof.
  unfold detect_task_type.
  repeat match goal with |- context [if ?b then _ else _] => destruct b end; reflexivity.
Qed.

Lemma decompose_loop_spec sentences n acc :
  decompose_loop sentences n acc =
  (acc ++ imap (fun i => clause_task (n + i))
               (List.filter truthy (map strip sentences)))%list.
Proof.
  revert n acc. induction sentences as [|sentence rest IH]; intros n acc.
  - simpl. by rewrite app_nil_r.
  - cbn [decompose_loop map List.filter].
    destruct (truthy (strip sentence)) eqn:Hne; cbn [negb].
    + rewrite detect_task_type_truthy, IH, imap_cons, <- app_assoc.
      cbn [app]. rewrite Nat.add_0_r. do 2 f_equal.
      apply imap_ext. intros i c _. simpl. f_equal. lia.
    + apply IH.
Qed.

Lemma decompose_spec text :
  decompose_collaborative_task text =
  imap clause_task (List.filter truthy (map strip (split "." text))).
Proof. unfold decompose_collaborative_task. by rewrite decompose_loop_spec. Qed.


End DecomposerFacts.

(** ** Complexity estimation *)

Section ComplexityFacts.
Import Complexity.

Lemma Qlt_bool_iff x y : Qlt_bool x y = true <-> (x < y)%Q.
Proof.
  unfold Qlt_bool. rewrite negb_true_iff. split.
  - intros Hf. apply Qnot_le_lt. intros Hle.
    apply Qle_bool_iff in Hle. congruence.
  - intros Hlt. destruct (Qle_bool y x) eqn:E; [|done].
    apply Qle_bool_iff in E. exfalso. by apply (Qlt_not_le x y).
Qed.

(** The head of the sorted list is a prediction of highest confidence. *)
Lemma sorted_desc_top l :
  match sorted_desc l with
  | [] => l = []
  | q :: _ => In q l /\ forall p, In p l -> (snd p <= snd q)%Q
  end.
Proof.
  induction l as [|a l IH]; [done|].
  change (sorted_desc (a :: l)) with (insert_desc a (sorted_desc l)).
  destruct (sorted_desc l) as [|q rest].
  - subst l. simpl. split; [by left|]. intros p [<-|[]]. apply Qle_refl.
  - destruct IH as [Hq Hmax]. simpl.
    destruct (Qle_bool (snd q) (snd a)) eqn:E.
    + apply Qle_bool_iff in E. split; [by left|].
      intros p [<-|Hp]; [apply Qle_refl|].
      eapply Qle_trans; [by apply Hmax|done].
    + split; [by right|]. intros p [<-|Hp]; [|by apply Hmax].
      apply Qlt_le_weak, Qnot_le_lt. intros Hle.
      apply Qle_bool_iff in Hle. congruence.
Qed.

(** C7, as the code has it.  A classifier that raises, or predicts
    nothing, gives LOW.  Otherwise the label of highest confidence
    decides: HIGH when that confidence is below 0.5; else HIGH for the
    label "HIGH" and LOW for every other label, "LOW" or not. *)
Theorem complexity_decision_rule (predict : string -> Prediction) (text : string) :
  match predict text with
  | PredictRaised _ => estimate_complexity predict text = "LOW"
  | Predicted [] => estimate_complexity predict text = "LOW"
  | Predicted predictions =>
      exists label confidence,
        In (label, confidence) predictions /\
        (forall p, In p predictions -> (snd p <= confidence)%Q) /\
        ((confidence < 1 # 2)%Q -> estimate_complexity predict text = "HIGH") /\
        ((1 # 2 <= confidence)%Q -> label = "HIGH" ->
         estimate_complexity predict text = "HIGH") /\
        ((1 # 2 <= confidence)%Q -> label <> "HIGH" ->
         estimate_complexity predict text = "LOW")
  end.
Proof.
  unfold estimate_complexity.
  destruct (predict text) as [msg|predictions]; [done|].
  destruct predictions as [|p0 ps]; [done|].
  pose proof (sorted_desc_top (p0 :: ps)) as Htop.
  destruct (sorted_desc (p0 :: ps)) as [|[label confidence] rest]; [done|].
  destruct Htop as [Hin Hmax]. exists label, confidence.
  split; [done|]. split; [done|].
  destruct (Qlt_bool confidence (1 # 2)) eqn:Hlt.
  - apply Qlt_bool_iff in Hlt.
    split; [done|].
    split; intros Hge; exfalso; by apply (Qlt_not_le _ _ Hlt).
  - split.
    { intros Hlt'. apply Qlt_bool_iff in Hlt'. congruence. }
    split; intros _ Hlabel.
    + subst label. reflexivity.
    + destruct (String.eqb label "HIGH") eqn:E.
      * apply String.eqb_eq in E. done.
      * by destruct (String.eqb label "LOW").
Qed.

(** C7 as stated fails: a confident prediction whose label is neither
    "HIGH" nor "LOW" is not returned. *)
Lemma complexity_predicted_label_counterexample :
  ~ (forall (predict : string -> Prediction) text predictions label confidence,
        predict text = Predicted predictions ->
        head (sorted_desc predictions) = Some (label, confidence) ->
        (1 # 2 <= confidence)%Q ->
        estimate_complexity predict text = label).
Proof.
  intros Hclaim.
  specialize (Hclaim (fun _ => Predicted [("LOW", 1 # 10); ("code", 9 # 10)])
                     "make me a snake game" _ "code" (9 # 10) eq_refl eq_refl).
  assert (1 # 2 <= 9 # 10)%Q as Hle by (unfold Qle; simpl; lia).
  specialize (Hclaim Hle). vm_compute in Hclaim. discriminate.
Qed.

End ComplexityFacts.

(** ** Pipeline mode: the dependency sort *)

Section SortFacts.
Import Scheduler.

Implicit Types (tasks : list AgentTask) (visited : gset string).

Lemma for_each_nil {St} (f : string -> St -> option St) st : for_each f [] st = st.
Proof. reflexivity. Qed.

Lemma for_each_cons {St} (f : string -> St -> option St) x xs st :
  for_each f (x :: xs) (Some st) = for_each f xs (f x st).
Proof. reflexivity. Qed.

Lemma for_each_None {St} (f : string -> St -> option St) xs : for_each f xs None = None.
Proof. induction xs as [|x xs IH]; [done|]. apply IH. Qed.

(** *** The dictionary of tasks *)

Lemma task_dict_acc_notin tasks (m : gmap string AgentTask) id :
  id ∉ map task_id tasks ->
  foldl (fun d task => <[task_id task := task]> d) m tasks !! id = m !! id.
Proof.
  revert m. induction tasks as [|a l IH]; intros m Hid; [done|].
  simpl in *. apply not_elem_of_cons in Hid as [Hne Hid].
  rewrite IH by done. by rewrite lookup_insert_ne.
Qed.

Lemma task_dict_acc_in tasks (m : gmap string AgentTask) t :
  NoDup (map task_id tasks) -> t ∈ tasks ->
  foldl (fun d task => <[task_id task := task]> d) m tasks !! task_id t = Some t.
Proof.
  revert m. induction tasks as [|a l IH]; intros m Hnd Ht.
  - by apply elem_of_nil in Ht.
  - simpl in *. apply NoDup_cons in Hnd as [Ha Hnd].
    apply elem_of_cons in Ht as [->|Ht]; [|by apply IH].
    rewrite task_dict_acc_notin by done. apply lookup_insert_eq.
Qed.

Lemma task_dict_acc_dom tasks (m : gmap string AgentTask) :
  dom (foldl (fun d task => <[task_id task := task]> d) m tasks)
  = dom m ∪ list_to_set (map task_id tasks).
Proof.
  revert m. induction tasks as [|a l IH]; intros m; simpl.
  - set_solver.
  - rewrite IH, dom_insert_L. set_solver.
Qed.

Lemma task_dict_None tasks id :
  task_dict tasks !! id = None <-> id ∉ map task_id tasks.
Proof.
  rewrite <- not_elem_of_dom. unfold task_dict.
  rewrite task_dict_acc_dom. set_solver.
Qed.

Lemma task_dict_Some tasks t :
  NoDup (map task_id tasks) -> t ∈ tasks -> task_dict tasks !! task_id t = Some t.
Proof. apply task_dict_acc_in. Qed.

Lemma size_list_to_set_le (l : list string) : size (list_to_set l : gset string) <= length l.
Proof.
  induction l as [|x l IH].
  - rewrite list_to_set_nil, size_empty. simpl. lia.
  - rewrite list_to_set_cons, size_union_alt, size_singleton.
    assert (size (list_to_set l ∖ {[x]} : gset string) <= size (list_to_set l : gset string)).
    { apply subseteq_size. set_solver. }
    simpl. lia.
Qed.

Lemma task_dict_size tasks : size (dom (task_dict tasks)) <= length tasks.
Proof.
  unfold task_dict. rewrite task_dict_acc_dom, dom_empty_L, (left_id_L ∅ (∪)).
  etrans; [apply size_list_to_set_le|]. by rewrite length_map.
Qed.


(** *** Selecting tasks by id *)

Lemma tasks_with_id_in_none (X : gset string) tasks :
  (forall t, t ∈ tasks -> task_id t ∉ X) -> tasks_with_id_in X tasks = [].
Proof.
  unfold tasks_with_id_in. induction tasks as [|a l IH]; intros Hno; [done|].
  rewrite filter_cons_False by (apply Hno; by left).
  apply IH. intros t Ht. apply Hno. by right.
Qed.

Lemma tasks_with_id_in_all (X : gset string) tasks :
  (forall t, t ∈ tasks -> task_id t ∈ X) -> tasks_with_id_in X tasks = tasks.
Proof.
  unfold tasks_with_id_in. induction tasks as [|a l IH]; intros Hall; [done|].
  rewrite filter_cons_True by (apply Hall; by left).
  f_equal. apply IH. intros t Ht. apply Hall. by right.
Qed.

Lemma tasks_with_id_in_union (A B : gset string) tasks :
  A ## B ->
  tasks_with_id_in (A ∪ B) tasks ≡ₚ tasks_with_id_in A tasks ++ tasks_with_id_in B tasks.
Proof.
  intros Hdisj. unfold tasks_with_id_in. induction tasks as [|a l IH]; [done|].
  destruct (decide (task_id a ∈ A)) as [HA|HA].
  - rewrite (filter_cons_True (fun t => task_id t ∈ A ∪ B)) by set_solver.
    rewrite (filter_cons_True (fun t => task_id t ∈ A)) by done.
    rewrite (filter_cons_False (fun t => task_id t ∈ B)) by set_solver.
    simpl. by rewrite IH.
  - rewrite (filter_cons_False (fun t => task_id t ∈ A)) by done.
    destruct (decide (task_id a ∈ B)) as [HB|HB].
    + rewrite (filter_cons_True (fun t => task_id t ∈ A ∪ B)) by set_solver.
      rewrite (filter_cons_True (fun t => task_id t ∈ B)) by done.
      rewrite IH. apply Permutation_middle.
    + rewrite (filter_cons_False (fun t => task_id t ∈ A ∪ B)) by set_solver.
      rewrite (filter_cons_False (fun t => task_id t ∈ B)) by done.
      done.
Qed.

Lemma tasks_with_id_in_singleton tasks t :
  NoDup (map task_id tasks) -> t ∈ tasks ->
  tasks_with_id_in {[task_id t]} tasks = [t].
Proof.
  unfold tasks_with_id_in. induction tasks as [|a l IH]; intros Hnd Ht.
  - by apply elem_of_nil in Ht.
  - simpl in Hnd. apply NoDup_cons in Hnd as [Ha Hnd].
    apply elem_of_cons in Ht as [->|Ht].
    + rewrite filter_cons_True by set_solver. f_equal.
      apply (tasks_with_id_in_none {[task_id a]} l).
      intros t Ht Hin. apply Ha. apply elem_of_singleton in Hin as <-.
      apply list_elem_of_fmap. by exists t.
    + rewrite filter_cons_False; [by apply IH|].
      intros Hin. apply elem_of_singleton in Hin. apply Ha. rewrite Hin.
      apply list_elem_of_fmap. by exists t.
Qed.

(** *** The traversal only extends its state *)

Lemma extends_refl tasks st : extends tasks st st.
Proof.
  split; [done|]. exists []. split; [by rewrite app_nil_r|].
  rewrite tasks_with_id_in_none; [done|]. set_solver.
Qed.

Lemma extends_trans tasks st1 st2 st3 :
  extends tasks st1 st2 -> extends tasks st2 st3 -> extends tasks st1 st3.
Proof.
  intros [Hsub1 (new1 & Hr1 & Hp1)] [Hsub2 (new2 & Hr2 & Hp2)].
  split; [set_solver|]. exists (new1 ++ new2).
  split; [by rewrite Hr2, Hr1, app_assoc|].
  rewrite Hp1, Hp2, <- tasks_with_id_in_union by set_solver.
  replace (st3.1 ∖ st1.1) with (st2.1 ∖ st1.1 ∪ st3.1 ∖ st2.1); [done|].
  apply set_eq. intros x. rewrite elem_of_union, !elem_of_difference.
  destruct (decide (x ∈ st2.1)); set_solver.
Qed.

Lemma for_each_extends tasks (f : string -> _ -> option (gset string * list AgentTask))
      xs st st' :
  (forall x st st', f x st = Some st' -> extends tasks st st' /\ x ∈ st'.1) ->
  for_each f xs (Some st) = Some st' ->
  extends tasks st st' /\ forall x, x ∈ xs -> x ∈ st'.1.
Proof.
  intros Hf. revert st. induction xs as [|x xs IH]; intros st Hrun.
  - injection Hrun as <-. split; [apply extends_refl|]. by intros x ?%elem_of_nil.
  - rewrite for_each_cons in Hrun.
    destruct (f x st) as [st1|] eqn:Hx; [|by rewrite for_each_None in Hrun].
    destruct (Hf _ _ _ Hx) as [Hext1 Hx1].
    destruct (IH _ Hrun) as [Hext Hxs].
    split; [by eapply extends_trans|].
    intros y [->|Hy]%elem_of_cons; [|by apply Hxs].
    destruct Hext as [Hsub _]. set_solver.
Qed.

Lemma visit_extends tasks depth tid st st' :
  NoDup (map task_id tasks) ->
  visit depth (task_dict tasks) tid st = Some st' ->
  extends tasks st st' /\ tid ∈ st'.1.
Proof.
  intros Hnd. revert tid st st'.
  induction depth as [|depth IH]; intros tid [visited result] st' Hrun; [done|].
  cbn [visit] in Hrun. destruct (decide (tid ∈ visited)) as [Hin|Hnew].
  { injection Hrun as <-. split; [apply extends_refl|done]. }
  destruct (task_dict tasks !! tid) as [task|] eqn:Hdict.
  - destruct (for_each _ _ _) as [[visited2 result2]|] eqn:Hdeps; [|done].
    simpl in Hrun. injection Hrun as <-.
    apply (for_each_extends tasks) in Hdeps as [[Hsub (new & Hr & Hp)] _]; [|apply IH].
    simpl in *. split; [|set_solver].
    split; [set_solver|]. exists (new ++ [task]). simpl.
    split; [by rewrite Hr, app_assoc|].
    assert (task ∈ tasks /\ task_id task = tid) as [Htask <-].
    { destruct (decide (tid ∈ map task_id tasks)) as [Hid|Hid].
      - apply list_elem_of_fmap in Hid as (t & -> & Ht).
        rewrite task_dict_Some in Hdict by done. by injection Hdict as <-.
      - apply task_dict_None in Hid. congruence. }
    replace (visited2 ∖ visited)
      with (visited2 ∖ (visited ∪ {[task_id task]}) ∪ {[task_id task]}).
    + rewrite tasks_with_id_in_union by set_solver.
      by rewrite Hp, tasks_with_id_in_singleton.
    + apply set_eq. intros x. rewrite elem_of_union, !elem_of_difference.
      destruct (decide (x = task_id task)); set_solver.
  - injection Hrun as <-. split; [|set_solver]. split; [set_solver|].
    exists []. split; [by rewrite app_nil_r|].
    rewrite tasks_with_id_in_none; [done|].
    intros t Ht Hin. apply task_dict_None in Hdict. apply Hdict.
    apply list_elem_of_fmap. exists t. set_solver.
Qed.


(** *** The traversal terminates within its budget *)

Lemma for_each_mono (f : string -> _ -> option (gset string * list AgentTask)) xs st st' :
  (forall x st st', f x st = Some st' -> st.1 ⊆ st'.1) ->
  for_each f xs (Some st) = Some st' -> st.1 ⊆ st'.1.
Proof.
  intros Hf. revert st. induction xs as [|x xs IH]; intros st Hrun.
  - by injection Hrun as <-.
  - rewrite for_each_cons in Hrun.
    destruct (f x st) as [st1|] eqn:Hx; [|by rewrite for_each_None in Hrun].
    etrans; [by eapply Hf|by apply IH].
Qed.

Lemma visit_mono depth (td : gmap string AgentTask) tid st st' :
  visit depth td tid st = Some st' -> st.1 ⊆ st'.1.
Proof.
  revert tid st st'.
  induction depth as [|depth IH]; intros tid [visited result] st' Hrun; [done|].
  cbn [visit] in Hrun. destruct (decide (tid ∈ visited)); [by injection Hrun as <-|].
  destruct (td !! tid) as [task|]; [|injection Hrun as <-; set_solver].
  destruct (for_each _ _ _) as [[visited2 result2]|] eqn:Hdeps; [|done].
  injection Hrun as <-. apply for_each_mono in Hdeps; [|apply IH]. set_solver.
Qed.

(** The ids of the dictionary not yet visited. *)
Local Notation pending td st := (size (dom td ∖ st.1)).

Lemma for_each_total (f : string -> _ -> option (gset string * list AgentTask))
      (td : gmap string AgentTask) n xs st :
  (forall x st st', f x st = Some st' -> st.1 ⊆ st'.1) ->
  (forall x st, pending td st < n -> is_Some (f x st)) ->
  pending td st < n -> is_Some (for_each f xs (Some st)).
Proof.
  intros Hmono Htotal. revert st. induction xs as [|x xs IH]; intros st Hn; [by eexists|].
  rewrite for_each_cons. destruct (Htotal x st Hn) as [st1 Hx]. rewrite Hx.
  apply IH. apply Hmono in Hx.
  eapply Nat.le_lt_trans; [|exact Hn]. apply subseteq_size. set_solver.
Qed.

Lemma visit_total depth (td : gmap string AgentTask) tid st :
  pending td st < depth -> is_Some (visit depth td tid st).
Proof.
  revert tid st. induction depth as [|depth IH]; intros tid [visited result] Hn; [lia|].
  cbn [visit]. destruct (decide (tid ∈ visited)); [by eexists|].
  destruct (td !! tid) as [task|] eqn:Hdict; [|by eexists].
  destruct (for_each_total (visit depth td) td depth (dependencies task)
              (visited ∪ {[tid]}, result)) as [[visited2 result2] ->].
  - intros x st st'. apply visit_mono.
  - intros x st. apply IH.
  - simpl in *.
    assert (dom td ∖ (visited ∪ {[tid]}) ⊂ dom td ∖ visited) as Hlt%subset_size; [|lia].
    assert (tid ∈ dom td) by (apply elem_of_dom; by eexists).
    split; [set_solver|]. intros Hsub. specialize (Hsub tid). set_solver.
  - by eexists.
Qed.


(** The budget [_sort_tasks_by_dependencies] gives its traversal is
    enough for every task list: the sort always returns. *)
Lemma sort_terminates tasks : is_Some (_sort_tasks_by_dependencies tasks).
Proof.
  unfold _sort_tasks_by_dependencies.
  destruct (for_each_total (visit (S (length tasks)) (task_dict tasks)) (task_dict tasks)
              (S (length tasks)) (map task_id tasks) (∅, [])) as [st ->].
  - intros x st st'. apply visit_mono.
  - intros x st. apply visit_total.
  - simpl. pose proof (task_dict_size tasks).
    assert (size (dom (task_dict tasks) ∖ (∅ : gset string))
            <= size (dom (task_dict tasks))); [|lia].
    apply subseteq_size. set_solver.
  - by eexists.
Qed.



End SortFacts.

(** ** One task: [execute_task] *)

Section ExecuteTaskFacts.
Import SharedContext Scheduler.
Context {World : Type} `{Clock World}.
Variable self : CollaborativeAgent World.

Implicit Types (task : AgentTask) (s : Sched World) (context_data : Dict).

(** The result of a call that found no worker for the capability. *)
Lemma execute_task_unavailable task context_data s :
  worker_outcome self task context_data s = None ->
  exists seconds,
    (execute_task self task context_data s).1
    = failed_result task seconds ("Agent type " +:+ agent_type task +:+ " not available") /\
    shared_context (execute_task self task context_data s).2 = shared_context s /\
    events (execute_task self task context_data s).2 = events s.
Proof.
  unfold worker_outcome, execute_task.
  destruct (time_time (world s)) as [start_time w].
  destruct (agents self !! agent_type task) as [agent|]; [done|]. intros _.
  destruct (time_time w) as [now w']. by eexists.
Qed.

(** The result of a call whose worker raised. *)
Lemma execute_task_raised task context_data s msg :
  worker_outcome self task context_data s = Some (Raised msg) ->
  exists seconds,
    (execute_task self task context_data s).1 = failed_result task seconds msg /\
    shared_context (execute_task self task context_data s).2 = shared_context s /\
    events (execute_task self task context_data s).2
    = events s ++ [Invoke (task_id task) (agent_type task)
                          (_prepare_task_prompt task context_data)].
Proof.
  unfold worker_outcome, execute_task.
  destruct (time_time (world s)) as [start_time w].
  destruct (agents self !! agent_type task) as [agent|]; [|done]. simpl.
  destruct (agent _ w) as [[msg'|answer reason ok] w']; simpl; [|done].
  intros [= ->]. destruct (time_time w') as [now w'']. by eexists.
Qed.

(** The result of a call whose worker returned. *)
Lemma execute_task_returned task context_data s answer reason ok :
  worker_outcome self task context_data s = Some (Returned answer reason ok) ->
  exists seconds,
    (execute_task self task context_data s).1
    = mkTaskResult (task_id task) (agent_type task) ok answer reason seconds None /\
    shared_context (execute_task self task context_data s).2
    = set (success_key task) (VBool ok)
          (set (result_key task) (VStr answer) (shared_context s)) /\
    events (execute_task self task context_data s).2
    = events s ++ [Invoke (task_id task) (agent_type task)
                          (_prepare_task_prompt task context_data)].
Proof.
  unfold worker_outcome, execute_task.
  destruct (time_time (world s)) as [start_time w].
  destruct (agents self !! agent_type task) as [agent|]; [|done]. simpl.
  destruct (agent _ w) as [[msg'|answer' reason' ok'] w']; simpl; [done|].
  intros [= -> -> ->]. destruct (time_time w') as [now w'']. by eexists.
Qed.

(** Whatever happens, the result is the one of the task handed in. *)
Lemma execute_task_ids task context_data s :
  res_task_id (execute_task self task context_data s).1 = task_id task /\
  res_agent_type (execute_task self task context_data s).1 = agent_type task.
Proof.
  destruct (worker_outcome self task context_data s) as [[msg|answer reason ok]|] eqn:Hout.
  - by destruct (execute_task_raised _ _ _ _ Hout) as (? & -> & _).
  - by destruct (execute_task_returned _ _ _ _ _ _ Hout) as (? & -> & _).
  - by destruct (execute_task_unavailable _ _ _ Hout) as (? & -> & _).
Qed.

(** The worker calls a call of [execute_task] adds: at most one, with
    the prompt built from the context data handed in. *)
Lemma execute_task_events task context_data s :
  events (execute_task self task context_data s).2
  = events s ++
    match agents self !! agent_type task with
    | Some _ => [Invoke (task_id task) (agent_type task)
                        (_prepare_task_prompt task context_data)]
    | None => []
    end.
Proof.
  unfold execute_task.
  destruct (time_time (world s)) as [start_time w].
  destruct (agents self !! agent_type task) as [agent|].
  - destruct (agent _ w) as [[msg'|answer' reason' ok'] w'];
      by destruct (time_time w') as [now w''].
  - destruct (time_time w) as [now w']. simpl. by rewrite app_nil_r.
Qed.

End ExecuteTaskFacts.

(** ** Sequential mode *)

Section SequentialFacts.
Import SharedContext Scheduler.
Context {World : Type} `{Clock World}.
Variable self : CollaborativeAgent World.

Implicit Types (task : AgentTask) (s : Sched World) (data context_data : Dict).

Lemma get_set_eq key value data : get key (set key value data) = Some value.
Proof.
  induction data as [|[k v] data IH]; simpl.
  - by rewrite String.eqb_refl.
  - destruct (String.eqb k key) eqn:E; simpl; by rewrite E.
Qed.

Lemma get_set_ne key key' value data :
  key <> key' -> get key (set key' value data) = get key data.
Proof.
  intros Hne. induction data as [|[k v] data IH]; simpl.
  - destruct (String.eqb key' key) eqn:E; [|done].
    apply String.eqb_eq in E. congruence.
  - destruct (String.eqb k key') eqn:E; simpl.
    + apply String.eqb_eq in E as ->.
      destruct (String.eqb key' key) eqn:E'; [|done].
      apply String.eqb_eq in E'. congruence.
    + by rewrite IH.
Qed.

(** A key once written stays. *)
Lemma get_set_keeps key key' value data :
  is_Some (get key data) -> is_Some (get key (set key' value data)).
Proof.
  intros Hkey. destruct (decide (key = key')) as [->|Hne].
  - rewrite get_set_eq. by eexists.
  - by rewrite get_set_ne.
Qed.

(** *** What one call of [execute_task] does to the shared context *)

Lemma execute_task_keeps task context_data s key :
  is_Some (get key (shared_context s)) ->
  is_Some (get key (shared_context (execute_task self task context_data s).2)).
Proof.
  intros Hkey.
  destruct (worker_outcome self task context_data s) as [[msg|answer reason ok]|] eqn:Hout.
  - by destruct (execute_task_raised self _ _ _ _ Hout) as (? & _ & -> & _).
  - destruct (execute_task_returned self _ _ _ _ _ _ Hout) as (? & _ & -> & _).
    by do 2 apply get_set_keeps.
  - by destruct (execute_task_unavailable self _ _ _ Hout) as (? & _ & -> & _).
Qed.

(** A call that ends without an error message has written the answer
    and the success flag of its result under the keys of its task. *)
Lemma execute_task_writes task context_data s :
  let r := (execute_task self task context_data s).1 in
  let data := shared_context (execute_task self task context_data s).2 in
  error_message r = None ->
  get (result_key task) data = Some (VStr (result r)) /\
  get (success_key task) data = Some (VBool (success r)).
Proof.
  intros r data. subst r data.
  destruct (worker_outcome self task context_data s) as [[msg|answer reason ok]|] eqn:Hout.
  - by destruct (execute_task_raised self _ _ _ _ Hout) as (? & -> & _).
  - destruct (execute_task_returned self _ _ _ _ _ _ Hout) as (? & -> & -> & _).
    intros _. simpl. split; [|apply get_set_eq].
    rewrite get_set_ne; [apply get_set_eq|].
    unfold result_key, success_key. intros Heq.
    do 2 apply (inj (String.app _)) in Heq. discriminate.
  - by destruct (execute_task_unavailable self _ _ _ Hout) as (? & -> & _).
Qed.

(** A call that ends with an error message has written nothing. *)
Lemma execute_task_failed_writes_nothing task context_data s :
  error_message (execute_task self task context_data s).1 <> None ->
  shared_context (execute_task self task context_data s).2 = shared_context s.
Proof.
  destruct (worker_outcome self task context_data s) as [[msg|answer reason ok]|] eqn:Hout.
  - by destruct (execute_task_raised self _ _ _ _ Hout) as (? & _ & -> & _).
  - by destruct (execute_task_returned self _ _ _ _ _ _ Hout) as (? & -> & _).
  - by destruct (execute_task_unavailable self _ _ _ Hout) as (? & _ & -> & _).
Qed.

(** *** One step of the loop *)

Lemma sequential_step_cases task s :
  let context_data := shared_context s in
  let first := execute_task self task context_data s in
  let task' := set_retry_count (retry_count task + 1) task in
  let second := execute_task self task' context_data first.2 in
  sequential_step self task s = (first.1, task, first.2) \/
  sequential_step self task s = (second.1, task', second.2).
Proof.
  intros context_data first task' second. unfold sequential_step, get_all.
  fold context_data. fold first. destruct first as [result s1] eqn:Hfirst.
  destruct (negb (success result) && (retry_count task <? max_retries task)%Z).
  - right. fold task'. simpl in second. fold second. by destruct second.
  - by left.
Qed.

Lemma sequential_step_keeps task s key :
  is_Some (get key (shared_context s)) ->
  is_Some (get key (shared_context (sequential_step self task s).2)).
Proof.
  intros Hkey. destruct (sequential_step_cases task s) as [-> | ->]; simpl.
  - by apply execute_task_keeps.
  - by do 2 apply execute_task_keeps.
Qed.

Lemma sequential_step_writes task s :
  let r := (sequential_step self task s).1.1 in
  let data := shared_context (sequential_step self task s).2 in
  error_message r = None ->
  get (result_key task) data = Some (VStr (result r)) /\
  get (success_key task) data = Some (VBool (success r)).
Proof.
  intros r data. subst r data.
  destruct (sequential_step_cases task s) as [-> | ->]; simpl.
  - apply execute_task_writes.
  - apply (execute_task_writes (set_retry_count (retry_count task + 1) task)).
Qed.

(** The worker calls of one step all carry the prompt built from the
    shared context as it was when the step began. *)
Lemma sequential_step_events task s :
  exists n,
    events (sequential_step self task s).2
    = events s ++ replicate n (Invoke (task_id task) (agent_type task)
                                      (_prepare_task_prompt task (shared_context s))).
Proof.
  destruct (sequential_step_cases task s) as [-> | ->]; simpl;
    rewrite !execute_task_events; simpl;
    destruct (agents self !! agent_type task).
  - by exists 1.
  - by exists 0.
  - exists 2. by rewrite <- app_assoc.
  - exists 0. by rewrite <- app_assoc.
Qed.

(** *** The whole loop *)

Lemma execute_sequential_cons task rest s :
  execute_sequential self (task :: rest) s
  = let '(result, task', s1) := sequential_step self task s in
    let '(results, tasks', s2) := execute_sequential self rest s1 in
    (result :: results, task' :: tasks', s2).
Proof. reflexivity. Qed.

Lemma execute_sequential_app pre post s :
  execute_sequential self (pre ++ post) s
  = let '(results_pre, tasks_pre, s1) := execute_sequential self pre s in
    let '(results_post, tasks_post, s2) := execute_sequential self post s1 in
    (results_pre ++ results_post, tasks_pre ++ tasks_post, s2).
Proof.
  revert s. induction pre as [|task pre IH]; intros s.
  - simpl. by destruct (execute_sequential self post s) as [[??]?].
  - rewrite <- app_comm_cons, !execute_sequential_cons.
    destruct (sequential_step self task s) as [[result task'] s1].
    rewrite IH.
    destruct (execute_sequential self pre s1) as [[results_pre tasks_pre] s2].
    by destruct (execute_sequential self post s2) as [[??]?].
Qed.

Lemma execute_sequential_keeps tasks s key :
  is_Some (get key (shared_context s)) ->
  is_Some (get key (shared_context (execute_sequential self tasks s).2)).
Proof.
  revert s. induction tasks as [|task rest IH]; intros s Hkey; [done|].
  rewrite execute_sequential_cons.
  pose proof (sequential_step_keeps task s key Hkey) as Hstep.
  destruct (sequential_step self task s) as [[result task'] s1].
  specialize (IH s1 Hstep).
  by destruct (execute_sequential self rest s1) as [[??]?].
Qed.

Lemma execute_sequential_length tasks s :
  length (execute_sequential self tasks s).1.1 = length tasks.
Proof.
  revert s. induction tasks as [|task rest IH]; intros s; [done|].
  rewrite execute_sequential_cons.
  destruct (sequential_step self task s) as [[result task'] s1].
  specialize (IH s1).
  destruct (execute_sequential self rest s1) as [[??]?]. simpl in *. by rewrite IH.
Qed.

(** When the loop is over, every task whose result carries no error
    message is in the shared context under both of its keys. *)
Lemma execute_sequential_writes tasks s i task r :
  tasks !! i = Some task ->
  (execute_sequential self tasks s).1.1 !! i = Some r ->
  error_message r = None ->
  is_Some (get (result_key task) (shared_context (execute_sequential self tasks s).2)) /\
  is_Some (get (success_key task) (shared_context (execute_sequential self tasks s).2)).
Proof.
  revert s i. induction tasks as [|task0 rest IH]; intros s i Hi Hr Herr; [done|].
  rewrite execute_sequential_cons in *.
  pose proof (sequential_step_writes task0 s) as Hstep.
  destruct (sequential_step self task0 s) as [[result task'] s1].
  pose proof (IH s1) as IH'.
  pose proof (execute_sequential_keeps rest s1) as Hkeeps.
  destruct (execute_sequential self rest s1) as [[results tasks'] s2].
  simpl in *. destruct i as [|i]; simpl in *.
  - injection Hi as ->. injection Hr as ->.
    destruct (Hstep Herr) as [Hres Hsucc].
    split; apply Hkeeps; [rewrite Hres|rewrite Hsucc]; by eexists.
  - by apply (IH' i).
Qed.

(** C2, as the code has it.  In sequential mode - and in pipeline mode,
    which is sequential mode on the sorted list - a task starts in the
    state the tasks before it have left, when each of them is over,
    retry included, and every worker call made for it carries the prompt
    built from the shared context of that state.  By then each earlier
    task whose result carries no error message is in the shared context
    under [task_<id>_result] and [task_<id>_success]; a call that ended
    in an exception has written nothing. *)
Theorem sequential_happens_before (pre : list AgentTask) (task_b : AgentTask)
        (post : list AgentTask) (s : Sched World) :
  exists results_pre tasks_pre s1,
    execute_sequential self pre s = (results_pre, tasks_pre, s1) /\
    execute_sequential self (pre ++ task_b :: post) s
    = (let '(result, task', s2) := sequential_step self task_b s1 in
       let '(results, tasks', s3) := execute_sequential self post s2 in
       (results_pre ++ result :: results, tasks_pre ++ task' :: tasks', s3)) /\
    (exists n,
       events (sequential_step self task_b s1).2
       = events s1 ++ replicate n (Invoke (task_id task_b) (agent_type task_b)
                                          (_prepare_task_prompt task_b (shared_context s1)))) /\
    (forall i task_a r,
       pre !! i = Some task_a -> results_pre !! i = Some r -> error_message r = None ->
       is_Some (get (result_key task_a) (shared_context s1)) /\
       is_Some (get (success_key task_a) (shared_context s1))) /\
    (forall task context_data st,
       error_message (execute_task self task context_data st).1 <> None ->
       shared_context (execute_task self task context_data st).2 = shared_context st) /\
    (forall tasks sorted_tasks,
       _sort_tasks_by_dependencies tasks = Some sorted_tasks ->
       execute_pipeline self tasks s = Some (execute_sequential self sorted_tasks s)).
Proof.
  destruct (execute_sequential self pre s) as [[results_pre tasks_pre] s1] eqn:Hpre.
  exists results_pre, tasks_pre, s1. split; [done|]. split.
  { rewrite execute_sequential_app, Hpre, execute_sequential_cons.
    destruct (sequential_step self task_b s1) as [[result task'] s2].
    by destruct (execute_sequential self post s2) as [[??]?]. }
  split; [apply sequential_step_events|]. split.
  { intros i task_a r Hi Hr Herr.
    pose proof (execute_sequential_writes pre s i task_a r Hi) as Hw.
    rewrite Hpre in Hw. by apply Hw. }
  split; [apply execute_task_failed_writes_nothing|].
  intros tasks sorted_tasks Hsort. unfold execute_pipeline. by rewrite Hsort.
Qed.

End SequentialFacts.

Section SequentialExamples.
Import SharedContext Scheduler Examples.
#[local] Existing Instance world_clock.

(** C2 as stated fails: the worker of A raises, on the retry too, and
    when the prompt of B is built the shared context has no entry
    [task_A_result]. *)
Lemma sequential_ordering_counterexample :
  exists results_a tasks_a s1,
    execute_sequential scheduler [look_up] initial = (results_a, tasks_a, s1) /\
    get "task_A_result" (shared_context s1) = None /\
    last (events (execute_sequential scheduler [look_up; write_it] initial).2)
    = Some (Invoke "B" "code" (_prepare_task_prompt write_it (shared_context s1))) /\
    _prepare_task_prompt write_it (shared_context s1)
    = _prepare_task_prompt write_it [].
Proof. eexists _, _, _. split; [by vm_compute|]. by vm_compute. Qed.

End SequentialExamples.

(** ** Parallel mode *)

Section ParallelFacts.
Import SharedContext Scheduler.
Context {World : Type} `{Clock World}.
Variable self : CollaborativeAgent World.

Implicit Types (task : AgentTask) (s : Sched World) (context_data : Dict).
Implicit Types (tasks : list AgentTask) (order : list nat).

(** Every position of the batch that is served gets the result of its
    own call of [execute_task], made in the state its turn came in. *)
Lemma run_concurrently_outcome context_data tasks order s i task :
  tasks !! i = Some task -> i ∈ order ->
  exists st,
    turn_state self context_data tasks order s i = Some st /\
    outcome_at i (run_concurrently self context_data tasks order s).1
    = Some (inl (execute_task self task context_data st).1).
Proof.
  intros Hi. revert s. induction order as [|j order IH]; intros s Hin.
  { by apply elem_of_nil in Hin. }
  unfold turn_state, outcome_at in *. cbn [run_concurrently turn_states].
  destruct (tasks !! j) as [tj|] eqn:Hj.
  - destruct (execute_task self tj context_data s) as [r s1] eqn:Hexec.
    destruct (run_concurrently self context_data tasks order s1) as [finished s2] eqn:Hrun.
    cbn [fst snd List.find].
    destruct (j =? i)%nat eqn:Hji.
    + apply Nat.eqb_eq in Hji as ->. exists s. simplify_eq. simpl.
      by rewrite Hexec.
    + apply Nat.eqb_neq in Hji. apply elem_of_cons in Hin as [->|Hin]; [done|].
      destruct (IH s1 Hin) as (st & Hst & Hout). rewrite Hrun in Hout. eauto.
  - apply elem_of_cons in Hin as [->|Hin]; [congruence|]. by apply IH.
Qed.

(** The worker calls of a batch all carry a prompt built from the one
    [context_data] the batch started with. *)
Lemma run_concurrently_events context_data tasks order s :
  events (run_concurrently self context_data tasks order s).2
  = events s ++ batch_calls self context_data tasks order.
Proof.
  revert s. induction order as [|j order IH]; intros s.
  { simpl. by rewrite app_nil_r. }
  unfold batch_calls in *. cbn [run_concurrently omap list_omap].
  destruct (tasks !! j) as [tj|] eqn:Hj; simpl.
  - pose proof (execute_task_events self tj context_data s) as Hev.
    destruct (execute_task self tj context_data s) as [r s1].
    specialize (IH s1).
    destruct (run_concurrently self context_data tasks order s1) as [finished s2].
    simpl in *. rewrite IH, Hev, <- app_assoc. f_equal.
    by destruct (agents self !! agent_type tj).
  - apply IH.
Qed.

(** A batch in which every position is served, on a scheduler with at
    least one slot, completes with one result per task, in task order. *)
Lemma execute_parallel_spec order tasks s :
  0 < max_parallel_tasks self ->
  (forall i, i < length tasks -> i ∈ order) ->
  let context_data := get_all (shared_context s) in
  exists results,
    execute_parallel self order tasks s
    = Some (results, (run_concurrently self context_data tasks order s).2) /\
    length results = length tasks /\
    forall i task, tasks !! i = Some task ->
      exists st,
        turn_state self context_data tasks order s i = Some st /\
        results !! i = Some (execute_task self task context_data st).1.
Proof.
  intros Hslots Hserved context_data. unfold execute_parallel. fold context_data.
  destruct (max_parallel_tasks self =? 0)%nat eqn:Hzero.
  { apply Nat.eqb_eq in Hzero. lia. }
  cbn [andb].
  destruct (run_concurrently self context_data tasks order s) as [finished s'] eqn:Hrun.
  assert (forall i task, tasks !! i = Some task ->
            exists st, turn_state self context_data tasks order s i = Some st /\
              outcome_at i finished = Some (inl (execute_task self task context_data st).1))
    as Hout.
  { intros i task Hi.
    destruct (run_concurrently_outcome context_data tasks order s i task Hi) as (st & ? & Ho).
    - apply Hserved. by eapply lookup_lt_Some.
    - rewrite Hrun in Ho. eauto. }
  destruct (mapM_is_Some_2 (fun i => outcome_at i finished) (seq 0 (length tasks)))
    as [outcomes Houtcomes].
  { apply Forall_forall. intros i [_ Hi]%elem_of_seq. simpl in Hi.
    destruct (lookup_lt_is_Some_2 tasks i Hi) as [task Htask].
    destruct (Hout i task Htask) as (st & _ & Ho).
    unfold compose. rewrite Ho. by eexists. }
  rewrite Houtcomes. simpl.
  apply mapM_Some_1 in Houtcomes.
  pose proof (Forall2_length _ _ _ Houtcomes) as Hlen. rewrite length_seq in Hlen.
  eexists. split; [reflexivity|].
  split; [by rewrite length_zip_with_l_eq|].
  intros i task Hi. destruct (Hout i task Hi) as (st & Hst & Ho).
  exists st. split; [done|].
  rewrite lookup_zip_with, Hi. simpl.
  destruct (Forall2_lookup_l _ _ _ i i Houtcomes) as (y & -> & Hy).
  { apply lookup_seq. split; [done|]. by eapply lookup_lt_Some. }
  simpl. rewrite Ho in Hy. by injection Hy as <-.
Qed.


Lemma served_of_permutation order tasks :
  order ≡ₚ seq 0 (length tasks) -> forall i, i < length tasks -> i ∈ order.
Proof. intros Hperm i Hi. rewrite Hperm. apply elem_of_seq. lia. Qed.

(** C3.  Snapshot isolation: whatever the order in which a parallel
    batch is served, the worker calls it makes are one per task with a
    registered worker, and each carries the prompt built from the shared
    context as it was when the batch started; what a sibling writes
    during the batch reaches no prompt of the batch. *)
Theorem parallel_snapshot_isolation (order : list nat) (tasks : list AgentTask)
        (s : Sched World) :
  0 < max_parallel_tasks self ->
  order ≡ₚ seq 0 (length tasks) ->
  exists results s',
    execute_parallel self order tasks s = Some (results, s') /\
    events s' = events s ++ batch_calls self (shared_context s) tasks order /\
    (forall e, e ∈ batch_calls self (shared_context s) tasks order ->
       exists task, task ∈ tasks /\
         e = Invoke (task_id task) (agent_type task)
                    (_prepare_task_prompt task (shared_context s))) /\
    (forall task, task ∈ tasks -> is_Some (agents self !! agent_type task) ->
       Invoke (task_id task) (agent_type task)
              (_prepare_task_prompt task (shared_context s))
       ∈ batch_calls self (shared_context s) tasks order).
Proof.
  intros Hslots Hperm.
  destruct (execute_parallel_spec order tasks s Hslots (served_of_permutation _ _ Hperm))
    as (results & Hrun & _).
  eexists _, _. split; [exact Hrun|].
  split; [apply run_concurrently_events|]. split.
  - intros e (i & _ & He)%list_elem_of_omap.
    destruct (tasks !! i) as [task|] eqn:Hi; [|done]. simpl in He.
    destruct (agents self !! agent_type task); [|done]. simpl in He.
    injection He as <-. exists task. split; [|done].
    by eapply list_elem_of_lookup_2.
  - intros task [i Hi]%list_elem_of_lookup [agent Hagent].
    apply list_elem_of_omap. exists i. split.
    + apply (served_of_permutation _ _ Hperm). by eapply lookup_lt_Some.
    + rewrite Hi. simpl. by rewrite Hagent.
Qed.


End ParallelFacts.

Section ParallelExamples.
Import SharedContext Scheduler Examples.
#[local] Existing Instance world_clock.

Lemma parallel_snapshot_isolation_witness :
  exists results s',
    execute_parallel scheduler [2; 0; 1] [look_up; write_it; find_notes] initial
    = Some (results, s') /\
    events s'
    = batch_calls scheduler [] [look_up; write_it; find_notes] [2; 0; 1].
Proof.
  destruct (parallel_snapshot_isolation scheduler [2; 0; 1]
              [look_up; write_it; find_notes] initial)
    as (results & s' & Hrun & Hev & _).
  - simpl. lia.
  - apply (bool_decide_unpack _). by vm_compute.
  - exists results, s'. split; [exact Hrun|exact Hev].
Defined.



End ParallelExamples.

(** ** Competitive mode *)

Section CompetitiveFacts.
Import SharedContext Scheduler.
Context {World : Type} `{Clock World}.
Variable self : CollaborativeAgent World.

Lemma Qlt_bool_false x y : Complexity.Qlt_bool x y = false -> (y <= x)%Q.
Proof.
  intros Hf. apply Qnot_lt_le. intros Hlt. apply Qlt_bool_iff in Hlt. congruence.
Qed.

(** [min_by_time] picks an element of the list, and none is faster. *)
Lemma min_by_time_spec best rest :
  min_by_time best rest ∈ best :: rest /\
  forall r, r ∈ best :: rest ->
    (execution_time (min_by_time best rest) <= execution_time r)%Q.
Proof.
  revert best. induction rest as [|x rest IH]; intros best; simpl.
  - split; [by left|]. intros r ->%list_elem_of_singleton. apply Qle_refl.
  - destruct (Complexity.Qlt_bool (execution_time x) (execution_time best)) eqn:Hlt.
    + destruct (IH x) as [Hin Hmin]. split.
      * apply elem_of_cons in Hin as [->|Hin]; set_solver.
      * intros r [->|Hr]%elem_of_cons; [|by apply Hmin].
        apply Qlt_bool_iff in Hlt.
        eapply Qle_trans; [apply Hmin; by left|by apply Qlt_le_weak].
    + destruct (IH best) as [Hin Hmin]. split.
      * apply elem_of_cons in Hin as [->|Hin]; set_solver.
      * intros r [->|[->|Hr]%elem_of_cons]%elem_of_cons.
        -- apply Hmin. by left.
        -- apply Qlt_bool_false in Hlt.
           eapply Qle_trans; [apply Hmin; by left|done].
        -- apply Hmin. by right.
Qed.

Lemma competitive_tasks_length task_description agent_types :
  length (competitive_tasks task_description agent_types) = length agent_types.
Proof. apply length_imap. Qed.

Lemma competitive_tasks_lookup task_description agent_types i :
  competitive_tasks task_description agent_types !! i
  = (fun agent_type =>
       new_task ("competitive_" +:+ pretty i) agent_type task_description [])
    <$> agent_types !! i.
Proof. apply list_lookup_imap. Qed.

(** C5.  Competitive execution over a non-empty list of candidate
    capabilities builds one task per candidate, all with the given
    description, and runs them as one parallel batch.  The caller always
    receives a result of that batch: a successful one that no
    successful result beats in execution time when some candidate
    succeeded, and else the first result of the batch. *)
Theorem competitive_selects_fastest_success (order : list nat)
        (task_description : string) (agent_types : list string) (s : Sched World) :
  agent_types <> [] ->
  0 < max_parallel_tasks self ->
  order ≡ₚ seq 0 (length agent_types) ->
  let tasks := competitive_tasks task_description agent_types in
  (forall i tag, agent_types !! i = Some tag ->
     exists task, tasks !! i = Some task /\
       agent_type task = tag /\ description task = task_description) /\
  exists results s' best,
    execute_parallel self order tasks s = Some (results, s') /\
    length results = length agent_types /\
    execute_competitive self order task_description agent_types s
    = Some (Some best, s') /\
    best ∈ results /\
    ((exists r, r ∈ results /\ success r = true) ->
     success best = true /\
     forall r, r ∈ results -> success r = true ->
       (execution_time best <= execution_time r)%Q) /\
    ((forall r, r ∈ results -> success r = false) -> head results = Some best).
Proof.
  intros Hne Hslots Hperm tasks. split.
  { intros i tag Hi. eexists. split.
    - unfold tasks. rewrite competitive_tasks_lookup, Hi. reflexivity.
    - done. }
  assert (length tasks = length agent_types) as Htasks
    by apply competitive_tasks_length.
  rewrite <- Htasks in Hperm.
  destruct (execute_parallel_spec self order tasks s Hslots
              (served_of_permutation _ _ Hperm)) as (results & Hrun & Hlen & _).
  rewrite Htasks in Hlen.
  unfold execute_competitive. fold tasks. rewrite Hrun. simpl.
  destruct (List.filter success results) as [|r0 rest] eqn:Hfilter.
  - destruct results as [|first results]; [by destruct agent_types|].
    eexists _, _, first. do 3 (split; [done|]). split; [by left|]. split; [|done].
    intros (r & Hr & Hok). exfalso.
    assert (In r (List.filter success (first :: results))) as Hin.
    { apply filter_In. split; [by apply list_elem_of_In|done]. }
    rewrite Hfilter in Hin. destruct Hin.
  - destruct (min_by_time_spec r0 rest) as [Hin Hmin].
    assert (forall r, r ∈ r0 :: rest <-> r ∈ results /\ success r = true) as Hsucc.
    { intros r. rewrite <- Hfilter, !list_elem_of_In, filter_In. done. }
    eexists _, _, (min_by_time r0 rest). do 3 (split; [done|]).
    apply Hsucc in Hin as [Hin Hok]. split; [done|]. split.
    + intros _. split; [done|]. intros r Hr Hrok. apply Hmin, Hsucc. done.
    + intros Hnone. rewrite (Hnone _ Hin) in Hok. done.
Qed.

End CompetitiveFacts.

Section CompetitiveExamples.
Import SharedContext Scheduler Examples.
#[local] Existing Instance world_clock.

(** The scenario of the specification: "code" succeeds in one second,
    "web" fails; the result of "code" is returned. *)
Lemma competitive_selects_fastest_success_witness :
  exists s',
    execute_competitive scheduler [1; 0] "write a script" ["code"; "web"] initial
    = Some (Some (mkTaskResult "competitive_0" "code" true "print(42)"
                               "wrote the script" 1 None), s').
Proof.
  destruct (competitive_selects_fastest_success scheduler [1; 0] "write a script"
              ["code"; "web"] initial)
    as (_ & results & s' & best & _ & _ & Hrun & _).
  - done.
  - simpl. lia.
  - apply (bool_decide_unpack _). by vm_compute.
  - exists s'. rewrite Hrun. vm_compute in Hrun. by injection Hrun as <- <-.
Defined.

End CompetitiveExamples.

(** ** Timeouts *)

Section TimeoutFacts.
Import SharedContext Scheduler.
Context {World : Type} `{Clock World}.
Variable self : CollaborativeAgent World.

(** C4, as the code has it.  Every task carries a timeout, 300 seconds
    unless set otherwise, and the scheduler never reads it: the result
    and the state a call of [execute_task] leaves are the same for every
    value of the timeout, so a task whose worker returns is reported
    with what the worker returned however long the call took. *)
Theorem timeout_is_not_consulted (task : AgentTask) (seconds : Z)
        (context_data : Dict) (s : Sched World) :
  (forall id tag text deps, timeout (new_task id tag text deps) = 300%Z) /\
  execute_task self (set_timeout seconds task) context_data s
  = execute_task self task context_data s /\
  (forall answer reason ok,
     worker_outcome self task context_data s = Some (Returned answer reason ok) ->
     exists elapsed,
       (execute_task self task context_data s).1
       = mkTaskResult (task_id task) (agent_type task) ok answer reason elapsed None).
Proof.
  split; [done|]. split; [reflexivity|].
  intros answer reason ok Hout.
  destruct (execute_task_returned self _ _ _ _ _ _ Hout) as (elapsed & Hr & _).
  by exists elapsed.
Qed.

End TimeoutFacts.

Section TimeoutExamples.
Import SharedContext Scheduler Examples.
#[local] Existing Instance world_clock.

(** C4 as stated fails: the planning worker takes 1000 seconds, the task
    allows 300, and the result is a success without an error message. *)
Lemma timeout_counterexample :
  let r := (execute_task scheduler make_plan [] initial).1 in
  timeout make_plan = 300%Z /\
  (inject_Z (timeout make_plan) < execution_time r)%Q /\
  success r = true /\ error_message r = None.
Proof. by vm_compute. Qed.

End TimeoutExamples.

(** ** The router and empty decompositions *)

Section RouterFacts.
Import PyStr Detector Decomposer SharedContext Scheduler Router.

(** *** A text judged collaborative holds a clause *)

Lemma solid_lower c : solid (lower_ascii c) = true -> solid c = true.
Proof. destruct c as [[] [] [] [] [] [] [] []]; vm_compute; congruence. Qed.

Lemma has_solid_lower s : has_solid (lower s) = true -> has_solid s = true.
Proof.
  induction s as [|c s IH]; [done|]. simpl.
  intros [Hc|Hs]%orb_true_iff; apply orb_true_iff.
  - left. by apply solid_lower.
  - right. by apply IH.
Qed.

Lemma contains_has_solid x w s :
  solid x = true -> contains (String x w) s = true -> has_solid s = true.
Proof.
  intros Hx. induction s as [|c s IH]; [done|].
  cbn [contains startswith has_solid].
  intros [[Hc _]%andb_true_iff|Hin]%orb_true_iff; apply orb_true_iff.
  - left. apply Ascii.eqb_eq in Hc. by subst c.
  - right. by apply IH.
Qed.

Lemma has_solid_lstrip s : has_solid s = true -> has_solid (lstrip s) = true.
Proof.
  induction s as [|c s IH]; [done|]. cbn [has_solid lstrip].
  destruct (is_space c) eqn:Hc; [|done].
  unfold solid. rewrite Hc. exact IH.
Qed.

Lemma has_solid_rstrip s : has_solid s = true -> truthy (rstrip s) = true.
Proof.
  induction s as [|c s IH]; [done|]. cbn [has_solid rstrip].
  destruct (rstrip s) as [|c' r]; [|done].
  destruct (is_space c) eqn:Hc; [|done].
  unfold solid. rewrite Hc. intros Hs. by apply IH in Hs.
Qed.

Lemma has_solid_strip s : has_solid s = true -> truthy (strip s) = true.
Proof. intros Hs. by apply has_solid_rstrip, has_solid_lstrip. Qed.

Lemma has_solid_split text :
  has_solid text = true ->
  exists piece, In piece (split "." text) /\ has_solid piece = true.
Proof.
  induction text as [|c text IH]; [done|]. cbn [has_solid split].
  destruct (Ascii.eqb c ".") eqn:Hdot.
  - unfold solid. rewrite Hdot, andb_false_r. simpl.
    intros (piece & Hin & Hp)%IH. exists piece. split; [by right|done].
  - destruct (split "." text) as [|piece0 pieces] eqn:Hsplit.
    + intros _. exists (String c ""). split; [by left|].
      destruct text; simpl in Hsplit; [done|].
      destruct (Ascii.eqb _ _); [done|]. by destruct (split "." text).
    + intros [Hc|Hs]%orb_true_iff.
      * exists (String c piece0). split; [by left|]. simpl. by rewrite Hc.
      * destruct (IH Hs) as (piece & [<-|Hin] & Hp).
        -- exists (String c piece0). split; [by left|]. simpl. rewrite Hp.
           apply orb_true_r.
        -- exists piece. split; [by right|done].
Qed.

(** Every keyword of the detector begins with a character that is
    neither white space nor a full stop. *)
Lemma keyword_head w :
  In w (collaboration_keywords ++ strong_keywords ++ action_words) ->
  exists x w', w = String x w' /\ solid x = true.
Proof.
  intros Hw.
  assert (forallb (fun w => match w with String x _ => solid x | EmptyString => false end)
                  (collaboration_keywords ++ strong_keywords ++ action_words) = true)
    as Hall by (by vm_compute).
  rewrite forallb_forall in Hall. specialize (Hall w Hw).
  destruct w as [|x w']; [done|]. by exists x, w'.
Qed.

Lemma detect_finds_keyword text :
  detect_collaborative_task text = true ->
  exists w, In w (collaboration_keywords ++ strong_keywords ++ action_words) /\
            contains w (lower text) = true.
Proof.
  unfold detect_collaborative_task.
  destruct (any_in exclusion_words (lower text)); [done|].
  destruct (List.filter _ collaboration_keywords) as [|w found] eqn:Hfound.
  - cbn [negb andb].
    destruct (any_in strong_keywords (lower text)) eqn:Hstrong.
    + intros _. apply any_in_true in Hstrong as (w & Hw & Hc).
      exists w. split; [|done]. apply in_or_app. right. apply in_or_app. by left.
    + destruct (List.filter _ action_words) as [|w found] eqn:Hact; [done|].
      intros _. assert (In w (List.filter (fun word => contains word (lower text))
                                          action_words)) as Hin
        by (rewrite Hact; by left).
      apply filter_In in Hin as [Hw Hc]. exists w. split; [|done].
      apply in_or_app. right. apply in_or_app. by right.
  - intros _. assert (In w (List.filter (fun keyword => contains keyword (lower text))
                                        collaboration_keywords)) as Hin
      by (rewrite Hfound; by left).
    apply filter_In in Hin as [Hw Hc]. exists w. split; [|done].
    apply in_or_app. by left.
Qed.

Lemma detect_has_clause text :
  detect_collaborative_task text = true -> decompose_collaborative_task text <> [].
Proof.
  intros (w & Hw & Hc)%detect_finds_keyword.
  destruct (keyword_head w Hw) as (x & w' & -> & Hx).
  apply (contains_has_solid x w' _ Hx), has_solid_lower, has_solid_split in Hc
    as (piece & Hin & Hp).
  apply has_solid_strip in Hp.
  rewrite decompose_spec. intros Hnil.
  apply (f_equal length) in Hnil. rewrite length_imap in Hnil.
  apply length_zero_iff_nil in Hnil.
  assert (In (strip piece) (List.filter truthy (map strip (split "." text)))) as Hf.
  { apply filter_In. split; [|done]. by apply in_map. }
  rewrite Hnil in Hf. destruct Hf.
Qed.

Context {World : Type} `{Clock World}.
Variable self : AgentRouter World.


End RouterFacts.

Section RouterExamples.
Import Decomposer SharedContext Scheduler Router Examples.
#[local] Existing Instance world_clock.


End RouterExamples.

(** * Further properties of the code *)

(** ** The shared context as a dictionary *)

Section SharedContextFacts.
Import SharedContext.

Implicit Types (key : string) (value : Value) (data updates : Dict).

(** X1.  Reading after writing: a key just set reads back the value
    written, and every other key reads as before. *)
Theorem get_after_set key key' value data :
  get key (set key' value data)
  = if String.eqb key' key then Some value else get key data.
Proof.
  destruct (String.eqb key' key) eqn:E.
  - apply String.eqb_eq in E as ->. apply get_set_eq.
  - apply String.eqb_neq in E. apply get_set_ne. congruence.
Qed.

Lemma get_None_keys key data : get key data = None <-> key ∉ map fst data.
Proof.
  induction data as [|[k v] data IH]; simpl.
  - split; [intros _; apply not_elem_of_nil|done].
  - destruct (String.eqb k key) eqn:E.
    + apply String.eqb_eq in E as ->. split; [done|]. intros Hn. destruct Hn. by left.
    + apply String.eqb_neq in E. rewrite IH, not_elem_of_cons. naive_solver.
Qed.

Lemma set_keys key value data :
  map fst (set key value data)
  = if decide (key ∈ map fst data) then map fst data else map fst data ++ [key].
Proof.
  induction data as [|[k v] data IH].
  - destruct (decide (key ∈ map fst [])) as [Hin|_]; [by apply elem_of_nil in Hin|done].
  - cbn [set]. destruct (String.eqb k key) eqn:E.
    + apply String.eqb_eq in E as ->.
      destruct (decide (key ∈ map fst ((key, v) :: data))) as [_|Hn]; [reflexivity|].
      destruct Hn. by left.
    + apply String.eqb_neq in E. cbn [map fst]. rewrite IH.
      destruct (decide (key ∈ map fst data)) as [Hin|Hin];
        destruct (decide (key ∈ k :: map fst data)) as [Hin'|Hin']; try done.
      * destruct Hin'. by right.
      * apply elem_of_cons in Hin' as [->|?]; done.
Qed.

Lemma set_keys_NoDup key value data :
  NoDup (map fst data) -> NoDup (map fst (set key value data)).
Proof.
  rewrite set_keys. intros Hnd. destruct (decide (key ∈ map fst data)); [done|].
  apply NoDup_app. split; [done|]. split; [|apply NoDup_singleton].
  intros x Hx ->%list_elem_of_singleton. done.
Qed.

(** X2.  Writing keeps the dictionary a dictionary: a key already there
    keeps its place in the order of insertion, a new key goes to the end,
    and no key ever occurs twice. *)
Theorem set_keeps_insertion_order key value data :
  (key ∈ map fst data -> map fst (set key value data) = map fst data) /\
  (key ∉ map fst data -> map fst (set key value data) = map fst data ++ [key]) /\
  (NoDup (map fst data) -> NoDup (map fst (set key value data))).
Proof.
  split; [|split]; [| |apply set_keys_NoDup]; rewrite set_keys.
  - intros Hin. by rewrite decide_True.
  - intros Hin. by rewrite decide_False.
Qed.

Lemma update_cons kv updates data :
  update (kv :: updates) data = update updates (set (fst kv) (snd kv) data).
Proof. reflexivity. Qed.

Lemma update_untouched key updates data :
  key ∉ map fst updates -> get key (update updates data) = get key data.
Proof.
  revert data. induction updates as [|[k v] updates IH]; intros data Hk; [done|].
  simpl in Hk. apply not_elem_of_cons in Hk as [Hne Hk].
  rewrite update_cons, IH by done. simpl. apply get_set_ne. congruence.
Qed.

(** X3.  A bulk update writes every pair of a dictionary of updates and
    touches nothing else: afterwards each updated key reads the new value,
    every other key reads as before, and the keys are still unique. *)
Theorem update_writes_all updates data :
  NoDup (map fst updates) ->
  (forall key value, (key, value) ∈ updates ->
     get key (update updates data) = Some value) /\
  (forall key, key ∉ map fst updates ->
     get key (update updates data) = get key data) /\
  (NoDup (map fst data) -> NoDup (map fst (update updates data))).
Proof.
  intros Hnd. split; [|split].
  - revert data Hnd. induction updates as [|[k v] updates IH]; intros data Hnd key value Hin.
    { by apply elem_of_nil in Hin. }
    simpl in Hnd. apply NoDup_cons in Hnd as [Hk Hnd]. rewrite update_cons. simpl.
    apply elem_of_cons in Hin as [[= -> ->]|Hin].
    + rewrite update_untouched by done. apply get_set_eq.
    + by apply IH.
  - intros key. apply update_untouched.
  - clear Hnd. revert data. induction updates as [|[k v] updates IH]; intros data Hd; [done|].
    rewrite update_cons. apply IH. simpl.
    by apply set_keys_NoDup.
Qed.

Lemma update_writes_all_witness :
  get "key2" (update [("key1", VStr "value1"); ("key2", VStr "value2")]
                     [("test_key", VStr "test_value")])
  = Some (VStr "value2").
Proof.
  apply (update_writes_all [("key1", VStr "value1"); ("key2", VStr "value2")]
                           [("test_key", VStr "test_value")]).
  - apply (bool_decide_unpack _). by vm_compute.
  - apply list_elem_of_In. simpl. tauto.
Defined.

End SharedContextFacts.

(** ** Sequential mode: retries and what the shared context holds *)

Section SequentialMore.
Import SharedContext Scheduler.
Context {World : Type} `{Clock World}.
Variable self : CollaborativeAgent World.

Implicit Types (task : AgentTask) (s : Sched World) (data context_data : Dict).

(** The worker calls of one step: one per attempt. *)
Lemma sequential_step_calls task s :
  let call := Invoke (task_id task) (agent_type task)
                     (_prepare_task_prompt task (shared_context s)) in
  let first := (execute_task self task (shared_context s) s).1 in
  exists n,
    events (sequential_step self task s).2 = events s ++ replicate n call /\
    n <= 2 /\
    (success first = true \/ (max_retries task <= retry_count task)%Z -> n <= 1).
Proof.
  intros call first. unfold sequential_step, get_all. fold first.
  pose proof (execute_task_events self task (shared_context s) s) as Hev1.
  destruct (execute_task self task (shared_context s) s) as [result s1] eqn:Hfirst.
  simpl in first, Hev1. subst first.
  destruct (negb (success result) && (retry_count task <? max_retries task)%Z) eqn:Hretry.
  - pose proof (execute_task_events self
                  (set_retry_count (retry_count task + 1) task) (shared_context s) s1) as Hev2.
    destruct (execute_task self _ (shared_context s) s1) as [retry_result s2].
    simpl in *. rewrite Hev2, Hev1. fold call.
    apply andb_true_iff in Hretry as [Hfail Hbudget].
    apply negb_true_iff in Hfail. apply Z.ltb_lt in Hbudget.
    destruct (agents self !! agent_type task).
    + exists 2. rewrite <- app_assoc. split; [done|]. split; [lia|].
      intros [?|?]; [congruence|lia].
    + exists 0. rewrite <- app_assoc. split; [done|]. split; lia.
  - simpl. rewrite Hev1. fold call. destruct (agents self !! agent_type task).
    + exists 1. split; [done|]. split; lia.
    + exists 0. split; [done|]. split; lia.
Qed.

Lemma execute_sequential_calls tasks s :
  exists calls,
    events (execute_sequential self tasks s).2 = events s ++ calls /\
    length calls <= 2 * length tasks.
Proof.
  revert s. induction tasks as [|task rest IH]; intros s.
  - exists []. split; [by rewrite app_nil_r|simpl; lia].
  - rewrite execute_sequential_cons.
    destruct (sequential_step_calls task s) as (n & Hev & Hn & _).
    destruct (sequential_step self task s) as [[result task'] s1].
    destruct (IH s1) as (calls & Hcalls & Hlen).
    destruct (execute_sequential self rest s1) as [[results tasks'] s2].
    simpl in *. eexists. rewrite Hcalls, Hev, <- app_assoc. split; [done|].
    rewrite length_app, length_replicate. lia.
Qed.

(** X4.  A sequential run calls the worker of a task at most twice,
    whatever its retry budget: once more only after a first attempt that
    did not succeed while the task's retry count was below its maximum.
    The calls of a step all carry the same prompt, and over a whole run
    the calls already recorded stay and at most two per task are added. *)
Theorem sequential_retries_at_most_once (tasks : list AgentTask) (s : Sched World) :
  (forall task st,
     let call := Invoke (task_id task) (agent_type task)
                        (_prepare_task_prompt task (shared_context st)) in
     exists n,
       events (sequential_step self task st).2 = events st ++ replicate n call /\
       n <= 2 /\
       (success (execute_task self task (shared_context st) st).1 = true \/
        (max_retries task <= retry_count task)%Z -> n <= 1)) /\
  exists calls,
    events (execute_sequential self tasks s).2 = events s ++ calls /\
    length calls <= 2 * length tasks.
Proof. split; [apply sequential_step_calls|apply execute_sequential_calls]. Qed.

(** The task a step hands back. *)
Lemma sequential_step_task task s :
  let task' := (sequential_step self task s).1.2 in
  task' = set_retry_count (retry_count task') task /\
  (retry_count task <= retry_count task' <= retry_count task + 1)%Z /\
  ((retry_count task <= max_retries task)%Z ->
   (retry_count task' <= max_retries task')%Z) /\
  (success (execute_task self task (shared_context s) s).1 = true -> task' = task).
Proof.
  unfold sequential_step, get_all.
  destruct (execute_task self task (shared_context s) s) as [result s1].
  destruct (negb (success result) && (retry_count task <? max_retries task)%Z) eqn:Hretry.
  - destruct (execute_task self _ (shared_context s) s1) as [retry_result s2].
    apply andb_true_iff in Hretry as [Hfail Hbudget].
    apply negb_true_iff in Hfail. apply Z.ltb_lt in Hbudget. simpl.
    split; [done|]. split; [lia|]. split; [lia|]. congruence.
  - simpl. split; [by destruct task|]. split; [lia|]. done.
Qed.


End SequentialMore.

(** ** The keys of the shared context *)

Section KeyFacts.
Import SharedContext Scheduler.

Lemma string_app_cons c (s1 s2 : string) : String c s1 +:+ s2 = String c (s1 +:+ s2).
Proof. reflexivity. Qed.

Lemma string_app_inj_length (s1 s2 x y : string) :
  String.length s1 = String.length s2 -> s1 +:+ x = s2 +:+ y -> s1 = s2 /\ x = y.
Proof.
  revert s2. induction s1 as [|c s1 IH]; intros [|c' s2] Hlen Heq; try done.
  rewrite !string_app_cons in Heq. injection Heq as -> Heq. injection Hlen as Hlen.
  destruct (IH s2 Hlen Heq) as [-> ->]. done.
Qed.

Lemma string_length_app (s1 s2 : string) :
  String.length (s1 +:+ s2) = String.length s1 + String.length s2.
Proof.
  induction s1 as [|c s1 IH]; [done|].
  rewrite string_app_cons. cbn [String.length]. by rewrite IH.
Qed.

Lemma string_app_assoc (s1 s2 s3 : string) : (s1 +:+ s2) +:+ s3 = s1 +:+ (s2 +:+ s3).
Proof.
  induction s1 as [|c s1 IH]; [done|]. rewrite !string_app_cons. by rewrite IH.
Qed.

Lemma string_app_inj_suffix (s1 s2 x y : string) :
  String.length x = String.length y -> s1 +:+ x = s2 +:+ y -> s1 = s2 /\ x = y.
Proof.
  intros Hlen Heq. apply string_app_inj_length; [|done].
  apply (f_equal String.length) in Heq. rewrite !string_length_app in Heq. lia.
Qed.

(** The keys of two tasks collide only when the tasks have the same id,
    and a result key is never a success key. *)
Lemma result_key_inj t t' : result_key t = result_key t' -> task_id t = task_id t'.
Proof.
  unfold result_key. intros Heq. apply (inj (String.app _)) in Heq.
  by apply string_app_inj_suffix in Heq as [? _].
Qed.

Lemma success_key_inj t t' : success_key t = success_key t' -> task_id t = task_id t'.
Proof.
  unfold success_key. intros Heq. apply (inj (String.app _)) in Heq.
  by apply string_app_inj_suffix in Heq as [? _].
Qed.

Lemma result_key_not_success_key t t' : result_key t <> success_key t'.
Proof.
  unfold result_key, success_key. intros Heq. apply (inj (String.app _)) in Heq.
  change (task_id t' +:+ "_success") with (task_id t' +:+ ("_" +:+ "success")) in Heq.
  rewrite <- string_app_assoc in Heq.
  by apply string_app_inj_suffix in Heq as [_ ?].
Qed.

End KeyFacts.

Section BlackboardFacts.
Import SharedContext Scheduler.
Context {World : Type} `{Clock World}.
Variable self : CollaborativeAgent World.

Implicit Types (task : AgentTask) (s : Sched World) (data context_data : Dict).

(** A call of [execute_task] touches no key but the two of its task. *)
Lemma execute_task_frame task context_data s key :
  key <> result_key task -> key <> success_key task ->
  get key (shared_context (execute_task self task context_data s).2)
  = get key (shared_context s).
Proof.
  intros Hr Hs.
  destruct (worker_outcome self task context_data s) as [[msg|answer reason ok]|] eqn:Hout.
  - by destruct (execute_task_raised self _ _ _ _ Hout) as (? & _ & -> & _).
  - destruct (execute_task_returned self _ _ _ _ _ _ Hout) as (? & _ & -> & _).
    by rewrite !get_set_ne.
  - by destruct (execute_task_unavailable self _ _ _ Hout) as (? & _ & -> & _).
Qed.

Lemma sequential_step_frame task s key :
  key <> result_key task -> key <> success_key task ->
  get key (shared_context (sequential_step self task s).2) = get key (shared_context s).
Proof.
  intros Hr Hs. destruct (sequential_step_cases self task s) as [-> | ->]; simpl.
  - by apply execute_task_frame.
  - rewrite execute_task_frame by done. by apply execute_task_frame.
Qed.

Lemma execute_sequential_frame tasks s key :
  (forall task, task ∈ tasks -> key <> result_key task /\ key <> success_key task) ->
  get key (shared_context (execute_sequential self tasks s).2) = get key (shared_context s).
Proof.
  revert s. induction tasks as [|task rest IH]; intros s Hkeys; [done|].
  rewrite execute_sequential_cons.
  pose proof (sequential_step_frame task s key) as Hstep.
  destruct (sequential_step self task s) as [[result task'] s1].
  pose proof (IH s1) as IH'.
  destruct (execute_sequential self rest s1) as [[results tasks'] s2].
  simpl in *. rewrite IH'.
  - apply Hstep; apply Hkeys; by left.
  - intros t Ht. apply Hkeys. by right.
Qed.

(** X6.  After a sequential run over tasks with pairwise distinct ids the
    shared context holds, for every task whose result carries no error
    message, exactly the answer and the success flag of that result under
    the two keys of the task: no later task has overwritten them. *)
Theorem sequential_context_holds_results (tasks : list AgentTask) (s : Sched World)
        (i : nat) (task : AgentTask) (r : TaskResult) :
  NoDup (map task_id tasks) ->
  tasks !! i = Some task ->
  (execute_sequential self tasks s).1.1 !! i = Some r ->
  error_message r = None ->
  get (result_key task) (shared_context (execute_sequential self tasks s).2)
  = Some (VStr (result r)) /\
  get (success_key task) (shared_context (execute_sequential self tasks s).2)
  = Some (VBool (success r)).
Proof.
  revert s i. induction tasks as [|task0 rest IH]; intros s i Hnd Hi Hr Herr; [done|].
  simpl in Hnd. apply NoDup_cons in Hnd as [Hfresh Hnd].
  rewrite execute_sequential_cons in *.
  pose proof (sequential_step_writes self task0 s) as Hstep.
  destruct (sequential_step self task0 s) as [[result task'] s1].
  pose proof (IH s1) as IH'.
  pose proof (execute_sequential_frame rest s1) as Hframe.
  destruct (execute_sequential self rest s1) as [[results tasks'] s2].
  simpl in *. destruct i as [|i]; simpl in *.
  - injection Hi as ->. injection Hr as ->.
    destruct (Hstep Herr) as [Hres Hsucc].
    assert (forall t, t ∈ rest -> task_id task <> task_id t) as Hother.
    { intros t Ht Heq. apply Hfresh. rewrite Heq. apply list_elem_of_fmap. by exists t. }
    rewrite !Hframe; [done| |].
    + intros t Ht. split.
      * intros Heq. symmetry in Heq. by apply result_key_not_success_key in Heq.
      * intros Heq%success_key_inj. by apply (Hother t).
    + intros t Ht. split.
      * intros Heq%result_key_inj. by apply (Hother t).
      * apply result_key_not_success_key.
  - by apply (IH' i).
Qed.

End BlackboardFacts.

Section BlackboardExamples.
Import SharedContext Scheduler Examples.
#[local] Existing Instance world_clock.

Lemma sequential_context_holds_results_witness :
  get "task_B_result"
      (shared_context (execute_sequential scheduler [write_it; find_notes] initial).2)
  = Some (VStr "print(42)").
Proof.
  apply (sequential_context_holds_results scheduler [write_it; find_notes] initial
           0 write_it
           (mkTaskResult "B" "code" true "print(42)" "wrote the script" 1 None)).
  - apply (bool_decide_unpack _). by vm_compute.
  - reflexivity.
  - by vm_compute.
  - reflexivity.
Defined.

End BlackboardExamples.

(** ** Parallel and competitive mode: what a completed batch returns *)

Section BatchFacts.
Import SharedContext Scheduler.
Context {World : Type} `{Clock World}.
Variable self : CollaborativeAgent World.

Implicit Types (task : AgentTask) (s : Sched World) (data context_data : Dict).
Implicit Types (tasks : list AgentTask) (order : list nat).

(** Whatever a batch has finished is the result of a call of
    [execute_task] on the task at that position. *)
Lemma run_concurrently_finished context_data tasks order s i y :
  (i, y) ∈ (run_concurrently self context_data tasks order s).1 ->
  exists task st, tasks !! i = Some task /\
    y = inl (execute_task self task context_data st).1.
Proof.
  revert s. induction order as [|j order IH]; intros s; cbn [run_concurrently].
  { by intros ?%elem_of_nil. }
  destruct (tasks !! j) as [tj|] eqn:Hj; [|apply IH].
  destruct (execute_task self tj context_data s) as [r s1] eqn:Hexec.
  specialize (IH s1).
  destruct (run_concurrently self context_data tasks order s1) as [finished s2].
  simpl in *. intros [[= -> ->]|Hin]%elem_of_cons; [|by apply IH].
  exists tj, s. by rewrite Hexec.
Qed.

Lemma outcome_at_elem i y finished :
  outcome_at i finished = Some y -> (i, y) ∈ finished.
Proof.
  unfold outcome_at. destruct (List.find _ finished) as [[j y']|] eqn:Hfind; [|done].
  intros [= <-]. apply find_some in Hfind as [Hin Hj]. simpl in Hj.
  apply Nat.eqb_eq in Hj as ->. by apply list_elem_of_In.
Qed.

Lemma run_concurrently_keeps context_data tasks order s key :
  is_Some (get key (shared_context s)) ->
  is_Some (get key (shared_context (run_concurrently self context_data tasks order s).2)).
Proof.
  revert s. induction order as [|j order IH]; intros s Hkey; [done|].
  cbn [run_concurrently]. destruct (tasks !! j) as [tj|]; [|by apply IH].
  pose proof (execute_task_keeps self tj context_data s key Hkey) as Hstep.
  destruct (execute_task self tj context_data s) as [r s1].
  specialize (IH s1 Hstep).
  by destruct (run_concurrently self context_data tasks order s1) as [finished s2].
Qed.

(** A batch that completes: its results and its final state. *)
Lemma execute_parallel_inv order tasks s results s' :
  execute_parallel self order tasks s = Some (results, s') ->
  s' = (run_concurrently self (shared_context s) tasks order s).2 /\
  length results = length tasks /\
  forall i r, results !! i = Some r ->
    exists task st, tasks !! i = Some task /\
      r = (execute_task self task (shared_context s) st).1.
Proof.
  unfold execute_parallel, get_all.
  destruct (_ && _); [done|].
  pose proof (run_concurrently_finished (shared_context s) tasks order s) as Hfin.
  destruct (run_concurrently self (shared_context s) tasks order s) as [finished s1].
  simpl in *.
  destruct (mapM _ _) as [outcomes|] eqn:Hmap; [|done]. simpl.
  intros [= <- <-]. split; [done|].
  apply mapM_Some_1 in Hmap.
  pose proof (Forall2_length _ _ _ Hmap) as Hlen. rewrite length_seq in Hlen.
  split; [by rewrite length_zip_with_l_eq|].
  intros i r Hr. rewrite lookup_zip_with in Hr.
  destruct (tasks !! i) as [task|] eqn:Hi; [|done]. simpl in Hr.
  destruct (outcomes !! i) as [y|] eqn:Hy; [|done]. simpl in Hr. injection Hr as <-.
  destruct (Forall2_lookup_r _ _ _ i y Hmap Hy) as (j & Hj & Hout).
  apply lookup_seq in Hj as [-> _]. simpl in Hout.
  apply outcome_at_elem, Hfin in Hout as (task' & st & Hi' & ->).
  rewrite Hi in Hi'. injection Hi' as <-. by exists task, st.
Qed.

(** X7.  A parallel batch that completes returns its results in the
    order of the tasks, whatever the order they were served in: the i-th
    result is the one of the i-th task, with its id and capability, and a
    result that carries an error message is a failure with an empty answer
    and an empty reasoning. *)
Theorem parallel_results_in_task_order (order : list nat) (tasks : list AgentTask)
        (s : Sched World) (results : list TaskResult) (s' : Sched World) :
  execute_parallel self order tasks s = Some (results, s') ->
  map res_task_id results = map task_id tasks /\
  map res_agent_type results = map agent_type tasks /\
  forall r, r ∈ results -> error_message r <> None ->
    success r = false /\ result r = "" /\ reasoning r = "".
Proof.
  intros (_ & Hlen & Hres)%execute_parallel_inv.
  assert (forall i r task, results !! i = Some r -> tasks !! i = Some task ->
            res_task_id r = task_id task /\ res_agent_type r = agent_type task) as Hids.
  { intros i r task Hr Hi. destruct (Hres i r Hr) as (task' & st & Hi' & ->).
    rewrite Hi in Hi'. injection Hi' as <-. apply execute_task_ids. }
  split; [|split].
  - apply list_eq. intros i. rewrite !list_lookup_fmap.
    destruct (results !! i) as [r|] eqn:Hr, (tasks !! i) as [task|] eqn:Hi; simpl.
    + by destruct (Hids i r task Hr Hi) as [-> _].
    + apply lookup_lt_Some in Hr. apply lookup_ge_None in Hi. lia.
    + apply lookup_lt_Some in Hi. apply lookup_ge_None in Hr. lia.
    + done.
  - apply list_eq. intros i. rewrite !list_lookup_fmap.
    destruct (results !! i) as [r|] eqn:Hr, (tasks !! i) as [task|] eqn:Hi; simpl.
    + by destruct (Hids i r task Hr Hi) as [_ ->].
    + apply lookup_lt_Some in Hr. apply lookup_ge_None in Hi. lia.
    + apply lookup_lt_Some in Hi. apply lookup_ge_None in Hr. lia.
    + done.
  - intros r [i Hr]%list_elem_of_lookup Herr.
    destruct (Hres i r Hr) as (task & st & _ & ->).
    destruct (worker_outcome self task (shared_context s) st)
      as [[msg|answer reason ok]|] eqn:Hout.
    + by destruct (execute_task_raised self _ _ _ _ Hout) as (? & -> & _).
    + destruct (execute_task_returned self _ _ _ _ _ _ Hout) as (? & Hr' & _).
      by rewrite Hr' in Herr.
    + by destruct (execute_task_unavailable self _ _ _ Hout) as (? & -> & _).
Qed.

(** X8.  Nothing is ever removed from the shared context: a key that is
    there before a run is there after it, in sequential, pipeline,
    parallel and competitive mode alike. *)
Theorem shared_context_only_grows (key : string) (s : Sched World) :
  is_Some (get key (shared_context s)) ->
  (forall tasks,
     is_Some (get key (shared_context (execute_sequential self tasks s).2))) /\
  (forall tasks out, execute_pipeline self tasks s = Some out ->
     is_Some (get key (shared_context out.2))) /\
  (forall order tasks results s',
     execute_parallel self order tasks s = Some (results, s') ->
     is_Some (get key (shared_context s'))) /\
  (forall order description agent_types best s',
     execute_competitive self order description agent_types s = Some (best, s') ->
     is_Some (get key (shared_context s'))).
Proof.
  intros Hkey.
  assert (forall order tasks results s',
            execute_parallel self order tasks s = Some (results, s') ->
            is_Some (get key (shared_context s'))) as Hpar.
  { intros order tasks results s' (-> & _)%execute_parallel_inv.
    by apply run_concurrently_keeps. }
  split; [|split; [|split]].
  - intros tasks. by apply execute_sequential_keeps.
  - intros tasks out. unfold execute_pipeline.
    destruct (_sort_tasks_by_dependencies tasks) as [sorted_tasks|]; [|done].
    intros [= <-]. by apply execute_sequential_keeps.
  - exact Hpar.
  - intros order description agent_types best s'. unfold execute_competitive.
    destruct (execute_parallel self order _ s) as [[results s1]|] eqn:Hrun; [|done].
    simpl. apply Hpar in Hrun.
    destruct (List.filter success results); by intros [= <- <-].
Qed.

End BatchFacts.

Section BatchExamples.
Import SharedContext Scheduler Examples.
#[local] Existing Instance world_clock.

Lemma parallel_results_in_task_order_witness :
  exists results s',
    execute_parallel scheduler [2; 0; 1] [look_up; write_it; find_notes] initial
    = Some (results, s') /\
    map res_task_id results = map task_id [look_up; write_it; find_notes].
Proof.
  eexists _, _. split; [by vm_compute|].
  refine (proj1 (parallel_results_in_task_order scheduler [2; 0; 1]
                   [look_up; write_it; find_notes] initial _ _ _)).
  by vm_compute.
Defined.

Lemma shared_context_only_grows_witness :
  let s := mkSched [("note", VStr "kept")] 0%Q [] in
  is_Some (get "note"
             (shared_context (execute_sequential scheduler [write_it; look_up] s).2)).
Proof.
  intros s.
  destruct (shared_context_only_grows scheduler "note" s) as [Hseq _].
  - by eexists.
  - apply Hseq.
Defined.

End BatchExamples.

(** ** Empty inputs and the choice of the competitive winner *)

Section EdgeFacts.
Import SharedContext Scheduler.
Context {World : Type} `{Clock World}.
Variable self : CollaborativeAgent World.

Implicit Types (s : Sched World) (order : list nat).

Lemma run_concurrently_no_task context_data order s :
  run_concurrently self context_data [] order s = ([], s).
Proof. induction order as [|j order IH]; [done|]. exact IH. Qed.

Lemma execute_parallel_no_task order s : execute_parallel self order [] s = Some ([], s).
Proof.
  unfold execute_parallel. rewrite run_concurrently_no_task.
  by rewrite andb_false_r.
Qed.


(** X10.  Competitive execution hands back Python's [None] exactly when
    it is given no candidate: on an empty candidate list it completes with
    [None] and an untouched state, and on a non-empty one every completed
    run returns a result. *)
Theorem competitive_none_iff_no_candidate (order : list nat) (description : string)
        (agent_types : list string) (s : Sched World) :
  execute_competitive self order description [] s = Some (None, s) /\
  forall best s',
    execute_competitive self order description agent_types s = Some (best, s') ->
    (best = None <-> agent_types = []).
Proof.
  split.
  { unfold execute_competitive, competitive_tasks. simpl.
    by rewrite execute_parallel_no_task. }
  intros best s'. unfold execute_competitive.
  destruct (execute_parallel self order _ s) as [[results s1]|] eqn:Hrun; [|done].
  simpl. apply execute_parallel_inv in Hrun as (_ & Hlen & _).
  rewrite competitive_tasks_length in Hlen.
  destruct (List.filter success results) as [|r rest] eqn:Hfilter.
  - intros [= <- <-]. destruct results, agent_types; simpl in *; try done.
  - intros [= <- <-]. split; [done|]. intros ->. by destruct results.
Qed.

(** [min_by_time] returns the first of the fastest elements. *)
Lemma min_by_time_first best rest :
  exists before after,
    best :: rest = before ++ min_by_time best rest :: after /\
    forall r, r ∈ before ->
      (execution_time (min_by_time best rest) < execution_time r)%Q.
Proof.
  revert best. induction rest as [|x rest IH]; intros best.
  { exists [], []. split; [done|]. by intros r ?%elem_of_nil. }
  cbn [min_by_time].
  destruct (Complexity.Qlt_bool (execution_time x) (execution_time best)) eqn:Hlt.
  - destruct (IH x) as (before & after & Heq & Hslow).
    exists (best :: before), after. split; [simpl; f_equal; exact Heq|].
    intros r [->|Hr]%elem_of_cons; [|by apply Hslow].
    apply Qlt_bool_iff in Hlt.
    eapply Qle_lt_trans; [|exact Hlt].
    apply min_by_time_spec. by left.
  - apply Qlt_bool_false in Hlt.
    destruct (IH best) as (before & after & Heq & Hslow).
    destruct before as [|b before]; simpl in Heq.
    + injection Heq as Hbest Hrest. exists [], (x :: after).
      split; [by rewrite <- Hbest, Hrest|]. by intros r ?%elem_of_nil.
    + injection Heq as <- Hrest. exists (best :: x :: before), after.
      split; [simpl; do 2 f_equal; exact Hrest|].
      assert (execution_time (min_by_time best rest) < execution_time best)%Q as Hbest
        by (apply Hslow; by left).
      intros r [->|[->|Hr]%elem_of_cons]%elem_of_cons.
      * done.
      * by eapply Qlt_le_trans.
      * apply Hslow. by right.
Qed.

Lemma filter_split {A} (P : A -> bool) l before m after :
  List.filter P l = before ++ m :: after ->
  exists l1 l2, l = l1 ++ m :: l2 /\ List.filter P l1 = before /\ List.filter P l2 = after.
Proof.
  revert before. induction l as [|a l IH]; intros before Hf; simpl in Hf.
  { by destruct before. }
  destruct (P a) eqn:Ha.
  - destruct before as [|b before]; simpl in Hf.
    + injection Hf as -> <-. by exists [], l.
    + injection Hf as <- Hf. destruct (IH _ Hf) as (l1 & l2 & -> & <- & <-).
      exists (a :: l1), l2. simpl. by rewrite Ha.
  - destruct (IH _ Hf) as (l1 & l2 & -> & <- & <-).
    exists (a :: l1), l2. simpl. by rewrite Ha.
Qed.

(** X11.  The winner of a competitive run is a result of the batch at a
    definite position: every successful result before it is strictly
    slower, so of equally fast successful candidates the one listed first
    wins, and when nobody succeeds the first result is returned.  Its task
    id names that position and its capability is the candidate listed
    there. *)
Theorem competitive_ties_go_to_first (order : list nat) (description : string)
        (agent_types : list string) (s : Sched World) (best : TaskResult)
        (s' : Sched World) :
  execute_competitive self order description agent_types s = Some (Some best, s') ->
  exists results before after,
    execute_parallel self order (competitive_tasks description agent_types) s
    = Some (results, s') /\
    results = before ++ best :: after /\
    (forall r, r ∈ before -> success r = true ->
       (execution_time best < execution_time r)%Q) /\
    (success best = false -> before = []) /\
    res_task_id best = "competitive_" +:+ pretty (length before) /\
    agent_types !! length before = Some (res_agent_type best).
Proof.
  unfold execute_competitive.
  destruct (execute_parallel self order _ s) as [[results s1]|] eqn:Hrun; [|done].
  simpl. intros Hbest.
  assert (exists before after,
             s1 = s' /\ results = before ++ best :: after /\
             (forall r, r ∈ before -> success r = true ->
                (execution_time best < execution_time r)%Q) /\
             (success best = false -> before = []))
    as (before & after & -> & -> & Hslow & Hfirst).
  { destruct (List.filter success results) as [|r0 rest] eqn:Hfilter.
    - destruct results as [|first results]; [done|]. injection Hbest as -> ->.
      exists [], results. split; [done|]. split; [done|].
      split; [by intros r ?%elem_of_nil|done].
    - injection Hbest as <- ->.
      destruct (min_by_time_first r0 rest) as (f1 & f2 & Heq & Hslow).
      rewrite Heq in Hfilter.
      destruct (filter_split _ _ _ _ _ Hfilter) as (l1 & l2 & -> & Hf1 & _).
      exists l1, l2. split; [done|]. split; [done|]. split.
      + intros r Hr Hok. apply Hslow. rewrite <- Hf1.
        apply list_elem_of_In, filter_In. split; [by apply list_elem_of_In|done].
      + intros Hfail.
        assert (In (min_by_time r0 rest) (List.filter success (l1 ++ min_by_time r0 rest :: l2)))
          as Hin by (rewrite Hfilter; apply in_elt).
        apply filter_In in Hin as [_ Hok]. congruence. }
  exists (before ++ best :: after), before, after.
  do 4 (split; [done|]).
  apply execute_parallel_inv in Hrun as (_ & _ & Hres).
  destruct (Hres (length before) best) as (task & st & Htask & ->).
  { by apply list_lookup_middle. }
  rewrite competitive_tasks_lookup in Htask.
  destruct (agent_types !! length before) as [tag|]; [|done].
  injection Htask as <-.
  by destruct (execute_task_ids self
                 (new_task ("competitive_" +:+ pretty (length before)) tag description [])
                 (shared_context s) st) as [-> ->].
Qed.

End EdgeFacts.

Section EdgeExamples.
Import SharedContext Scheduler Examples.
#[local] Existing Instance world_clock.

Lemma competitive_ties_go_to_first_witness :
  exists results before after s',
    execute_parallel scheduler [0; 1; 2] (competitive_tasks "plan it" ["web"; "plan"; "code"])
                     initial
    = Some (results, s') /\
    results = before ++ mkTaskResult "competitive_2" "code" true "print(42)"
                                     "wrote the script" 1 None :: after /\
    length before = 2.
Proof.
  destruct (competitive_ties_go_to_first scheduler [0; 1; 2] "plan it"
              ["web"; "plan"; "code"] initial
              (mkTaskResult "competitive_2" "code" true "print(42)" "wrote the script" 1 None)
              (mkSched [("task_competitive_1_result", VStr "the plan");
                        ("task_competitive_1_success", VBool true);
                        ("task_competitive_2_result", VStr "print(42)");
                        ("task_competitive_2_success", VBool true)]
                       1003%Q
                       (batch_calls scheduler [] (competitive_tasks "plan it" ["web"; "plan"; "code"])
                                    [0; 1; 2])))
    as (results & before & after & Hrun & Heq & _ & _ & Hid & _).
  - by vm_compute.
  - exists results, before, after. eexists. split; [exact Hrun|]. split; [exact Heq|].
    change "competitive_2" with ("competitive_" +:+ pretty 2%nat) in Hid.
    apply (inj (String.app _)) in Hid. by apply (inj pretty) in Hid.
Defined.

End EdgeExamples.

(** ** Pipeline mode: the order the sort produces *)

Section SortOrder.
Import Scheduler SortSpec.

Variable tasks : list AgentTask.
Hypothesis distinct_ids : NoDup (map task_id tasks).

Implicit Types (st : gset string * list AgentTask).

Lemma pending_extends st st' x :
  extends tasks st st' -> pending tasks st' x -> pending tasks st x.
Proof.
  intros [Hsub (new & Hr & Hp)] (Hv & HT & Hr').
  rewrite Hr, map_app, elem_of_app in Hr'.
  split; [|split; [done|naive_solver]].
  destruct (decide (x ∈ st.1)) as [|Hnew]; [done|]. exfalso.
  apply list_elem_of_fmap in HT as (t & -> & Ht).
  apply Hr'. right. apply list_elem_of_fmap. exists t. split; [done|].
  rewrite Hp. apply list_elem_of_filter. split; [set_solver|done].
Qed.

Section WithRank.
Variable rank : string -> nat.
Hypothesis acyclic :
  forall task dep_id, task ∈ tasks -> dep_id ∈ dependencies task ->
    dep_id ∈ map task_id tasks -> rank dep_id < rank (task_id task).

Lemma for_each_ordered (f : string -> _ -> option (gset string * list AgentTask)) xs st st' :
  (forall x st st', f x st = Some st' -> extends tasks st st' /\ x ∈ st'.1) ->
  (forall x st st', f x st = Some st' ->
     dependencies_first tasks st.2 ->
     (x ∈ map task_id tasks -> forall y, pending tasks st y -> rank x < rank y) ->
     dependencies_first tasks st'.2) ->
  for_each f xs (Some st) = Some st' ->
  dependencies_first tasks st.2 ->
  (forall x, x ∈ xs -> x ∈ map task_id tasks ->
     forall y, pending tasks st y -> rank x < rank y) ->
  dependencies_first tasks st'.2.
Proof.
  intros Hext Hord. revert st. induction xs as [|x xs IH]; intros st Hrun Hst Hrank.
  - by injection Hrun as <-.
  - rewrite for_each_cons in Hrun.
    destruct (f x st) as [st1|] eqn:Hx; [|by rewrite for_each_None in Hrun].
    apply (IH st1 Hrun).
    + apply (Hord x st st1 Hx Hst). intros Hin. apply Hrank; [by left|done].
    + intros y Hy HT z Hz. apply Hrank; [by right|done|].
      eapply pending_extends; [|exact Hz]. by apply (Hext x).
Qed.

Lemma visit_ordered depth tid st st' :
  visit depth (task_dict tasks) tid st = Some st' ->
  dependencies_first tasks st.2 ->
  (tid ∈ map task_id tasks -> forall y, pending tasks st y -> rank tid < rank y) ->
  dependencies_first tasks st'.2.
Proof.
  revert tid st st'.
  induction depth as [|depth IH]; intros tid [visited result] st' Hrun Hst Hrank; [done|].
  cbn [visit] in Hrun. destruct (decide (tid ∈ visited)) as [Hin|Hnew].
  { by injection Hrun as <-. }
  destruct (task_dict tasks !! tid) as [task|] eqn:Hdict; [|by injection Hrun as <-].
  destruct (for_each _ _ _) as [[visited2 result2]|] eqn:Hdeps; [|done].
  simpl in Hrun. injection Hrun as <-.
  assert (task ∈ tasks /\ task_id task = tid) as [Htask <-].
  { destruct (decide (tid ∈ map task_id tasks)) as [Hid|Hid].
    - apply list_elem_of_fmap in Hid as (t & -> & Ht).
      rewrite task_dict_Some in Hdict by done. by injection Hdict as <-.
    - apply task_dict_None in Hid. congruence. }
  assert (task_id task ∈ map task_id tasks) as HT
    by (apply list_elem_of_fmap; by exists task).
  assert (forall y, pending tasks (visited ∪ {[task_id task]}, result) y ->
            y = task_id task \/ pending tasks (visited, result) y) as Hpend1.
  { intros y (Hv & HyT & Hr). simpl in *.
    apply elem_of_union in Hv as [Hv|Hv]; [by right|].
    apply elem_of_singleton in Hv. by left. }
  assert (forall d y, d ∈ dependencies task -> d ∈ map task_id tasks ->
            pending tasks (visited ∪ {[task_id task]}, result) y -> rank d < rank y)
    as Hrank1.
  { intros d y Hd HdT Hy. apply Hpend1 in Hy as [Hy|Hy]; [subst y; by apply acyclic|].
    etrans; [by apply acyclic|]. by apply Hrank. }
  pose proof Hdeps as Hdeps'.
  apply (for_each_extends tasks) in Hdeps' as [Hext Hall];
    [|intros x st st'; by apply visit_extends].
  apply (for_each_ordered (visit depth (task_dict tasks))) in Hdeps; [| |exact IH|done|].
  - simpl in *. intros before t after Heq d Hd HdT.
    destruct (decide (after = [])) as [->|Hafter].
    + apply app_inj_tail in Heq as [<- <-].
      destruct (decide (d ∈ map task_id result2)) as [|Hnot]; [done|]. exfalso.
      assert (pending tasks (visited ∪ {[task_id task]}, result) d) as Hd'.
      { apply (pending_extends _ (visited2, result2)); [done|].
        split; [by apply Hall|done]. }
      specialize (Hrank1 d d Hd HdT Hd'). lia.
    + destruct (exists_last Hafter) as (after' & last & ->).
      rewrite app_comm_cons, app_assoc in Heq.
      apply app_inj_tail in Heq as [Heq _]. by eapply Hdeps.
  - intros x st st'. by apply visit_extends.
  - simpl. intros d Hd HdT y Hy. by apply (Hrank1 d y).
Qed.


End WithRank.

End SortOrder.

Section SortOrderExamples.
Import Scheduler SortSpec.


End SortOrderExamples.

Section SortStable.
Import Scheduler SortSpec.

Variable tasks : list AgentTask.
Hypothesis distinct_ids : NoDup (map task_id tasks).
Hypothesis in_order : dependencies_first tasks tasks.

(** Dependencies that are already visited, or name no task, add nothing
    to the result. *)
Lemma for_each_settled depth deps (visited : gset string) result :
  (forall d, d ∈ deps -> d ∈ map task_id tasks -> d ∈ visited) ->
  exists visited',
    for_each (visit (S depth) (task_dict tasks)) deps (Some (visited, result))
    = Some (visited', result) /\
    (forall x, x ∈ visited -> x ∈ visited') /\
    (forall x, x ∈ visited' -> x ∈ visited \/ x ∈ deps).
Proof.
  revert visited. induction deps as [|d deps IH]; intros visited Hdeps.
  { exists visited. split; [done|]. split; [done|]. by left. }
  rewrite for_each_cons.
  destruct (decide (d ∈ visited)) as [Hin|Hnew].
  - assert (visit (S depth) (task_dict tasks) d (visited, result) = Some (visited, result))
      as -> by (cbn [visit]; by rewrite decide_True).
    destruct (IH visited) as (visited' & -> & Hsup & Hsub).
    { intros d' Hd'. apply Hdeps. by right. }
    exists visited'. split; [done|]. split; [done|].
    intros x Hx. apply Hsub in Hx as [?|?]; [by left|right; by right].
  - assert (visit (S depth) (task_dict tasks) d (visited, result)
            = Some (visited ∪ {[d]}, result)) as ->.
    { cbn [visit]. rewrite decide_False by done.
      assert (task_dict tasks !! d = None) as ->; [|done].
      apply task_dict_None. intros HT. apply Hnew. apply Hdeps; [by left|done]. }
    destruct (IH (visited ∪ {[d]})) as (visited' & -> & Hsup & Hsub).
    { intros d' Hd' HT. apply elem_of_union. left. apply Hdeps; [by right|done]. }
    exists visited'. split; [done|]. split.
    + intros x Hx. apply Hsup. apply elem_of_union. by left.
    + intros x Hx. apply Hsub in Hx as [Hx|Hx]; [|right; by right].
      apply elem_of_union in Hx as [Hx|Hx]; [by left|].
      apply elem_of_singleton in Hx. subst x. right. by left.
Qed.

(** One task of a list in dependency order: its dependencies are settled,
    so the visit appends the task and nothing else. *)
Lemma visit_in_order pre t post (visited : gset string) :
  tasks = pre ++ t :: post ->
  (forall x, x ∈ visited -> x ∈ map task_id tasks -> x ∈ map task_id pre) ->
  (forall x, x ∈ map task_id pre -> x ∈ visited) ->
  exists visited',
    visit (S (length tasks)) (task_dict tasks) (task_id t) (visited, pre)
    = Some (visited', pre ++ [t]) /\
    (forall x, x ∈ visited' -> x ∈ map task_id tasks -> x ∈ map task_id (pre ++ [t])) /\
    (forall x, x ∈ map task_id (pre ++ [t]) -> x ∈ visited').
Proof.
  intros Heq Hvis Hpre.
  assert (t ∈ tasks) as Ht by (rewrite Heq; set_solver).
  assert (task_id t ∉ map task_id pre) as Hfresh.
  { pose proof distinct_ids as Hnd. rewrite Heq, map_app in Hnd.
    apply NoDup_app in Hnd as (_ & Hdisj & _).
    intros Hin. apply (Hdisj _ Hin). simpl. by left. }
  assert (task_id t ∉ visited) as Hnew.
  { intros Hin. apply Hfresh. apply Hvis; [done|]. apply list_elem_of_fmap. by exists t. }
  destruct (length tasks) as [|depth] eqn:Hlen.
  { apply length_zero_iff_nil in Hlen. rewrite Hlen in Ht. by apply elem_of_nil in Ht. }
  destruct (for_each_settled depth (dependencies t) (visited ∪ {[task_id t]}) pre)
    as (visited2 & Hrun & Hsup & Hsub).
  { intros d Hd HT. apply elem_of_union. left.
    apply Hpre. by apply (in_order pre t post Heq d). }
  exists visited2. split; [|split].
  - cbn [visit]. rewrite decide_False by done. rewrite task_dict_Some by done.
    change (for_each (visit (S depth) (task_dict tasks)) (dependencies t)
              (Some (visited ∪ {[task_id t]}, pre))
            ≫= (fun '(visited, result) => Some (visited, result ++ [t]))
            = Some (visited2, pre ++ [t])).
    by rewrite Hrun.
  - intros x Hx HT. rewrite map_app. apply elem_of_app.
    apply Hsub in Hx as [Hx|Hx].
    + apply elem_of_union in Hx as [Hx|Hx].
      * left. by apply Hvis.
      * right. apply elem_of_singleton in Hx. subst x. simpl. by left.
    + left. by apply (in_order pre t post Heq x).
  - intros x. rewrite map_app. intros [Hx|Hx]%elem_of_app; apply Hsup.
    + apply elem_of_union. left. by apply Hpre.
    + simpl in Hx. apply list_elem_of_singleton in Hx. subst x.
      apply elem_of_union. right. by apply elem_of_singleton.
Qed.

Lemma sort_loop_in_order post pre (visited : gset string) :
  tasks = pre ++ post ->
  (forall x, x ∈ visited -> x ∈ map task_id tasks -> x ∈ map task_id pre) ->
  (forall x, x ∈ map task_id pre -> x ∈ visited) ->
  exists visited',
    for_each (visit (S (length tasks)) (task_dict tasks)) (map task_id post)
             (Some (visited, pre))
    = Some (visited', tasks).
Proof.
  revert pre visited. induction post as [|t post IH]; intros pre visited Heq Hvis Hpre.
  { exists visited. rewrite app_nil_r in Heq. by subst pre. }
  cbn [map]. rewrite for_each_cons.
  destruct (visit_in_order pre t post visited Heq Hvis Hpre) as (visited2 & -> & Hvis2 & Hpre2).
  apply (IH (pre ++ [t]) visited2); [|done..].
  by rewrite <- app_assoc.
Qed.

Lemma sort_in_order : _sort_tasks_by_dependencies tasks = Some tasks.
Proof.
  unfold _sort_tasks_by_dependencies.
  assert (forall x : string, x ∈ (∅ : gset string) -> x ∈ map task_id tasks ->
            x ∈ map task_id ([] : list AgentTask)) as Hvis
    by (intros x Hx; by apply not_elem_of_empty in Hx).
  assert (forall x : string, x ∈ map task_id ([] : list AgentTask) ->
            x ∈ (∅ : gset string)) as Hpre
    by (intros x Hx; by apply elem_of_nil in Hx).
  by destruct (sort_loop_in_order tasks [] ∅ eq_refl Hvis Hpre) as (visited' & ->).
Qed.

(** X13.  A list that is already in dependency order, with pairwise
    distinct ids, comes out of the sort unchanged - in particular every
    list of tasks without dependencies - so pipeline mode then runs
    exactly what sequential mode runs. *)
Theorem sort_keeps_dependency_order :
  _sort_tasks_by_dependencies tasks = Some tasks /\
  forall World (clock : Clock World) (self : CollaborativeAgent World) s,
    execute_pipeline self tasks s = Some (execute_sequential self tasks s).
Proof.
  split; [apply sort_in_order|].
  intros World clock self s. unfold execute_pipeline. by rewrite sort_in_order.
Qed.

End SortStable.

Section SortStableExamples.
Import Scheduler SortSpec.

Lemma sort_keeps_dependency_order_witness :
  let search := new_task "task_1" "web" "Search for Python tutorials" [] in
  let write := new_task "task_2" "code" "Write a Python script" ["task_1"] in
  let save := new_task "task_3" "files" "Save the script to file" ["task_2"] in
  _sort_tasks_by_dependencies [search; write; save] = Some [search; write; save].
Proof.
  intros search write save.
  apply (sort_keeps_dependency_order [search; write; save]).
  - apply (bool_decide_unpack _). by vm_compute.
  - intros before task after Heq dep_id Hd _.
    destruct before as [|b0 [|b1 [|b2 [|b3 before]]]]; simplify_eq/=;
      try (by destruct before); set_solver.
Defined.

End SortStableExamples.

(** ** What the decomposer hands to the scheduler *)

Section DecomposerMore.
Import PyStr Decomposer Scheduler SortSpec.

(** *** Characters that survive splitting and stripping *)

Lemma contains_char_cons c a s :
  contains (String c "") (String a s) = Ascii.eqb c a || contains (String c "") s.
Proof. cbn [contains startswith]. by rewrite andb_true_r. Qed.

Lemma contains_char_lstrip c s :
  contains (String c "") s = false -> contains (String c "") (lstrip s) = false.
Proof.
  induction s as [|a s IH]; [done|]. cbn [lstrip].
  destruct (is_space a); [|done].
  rewrite contains_char_cons. intros [_ Hs]%orb_false_iff. by apply IH.
Qed.

Lemma contains_char_rstrip c s :
  contains (String c "") s = false -> contains (String c "") (rstrip s) = false.
Proof.
  induction s as [|a s IH]; [done|]. cbn [rstrip].
  rewrite contains_char_cons. intros [Ha Hs]%orb_false_iff. specialize (IH Hs).
  destruct (rstrip s) as [|b r].
  - destruct (is_space a); [done|]. rewrite contains_char_cons, Ha. done.
  - by rewrite contains_char_cons, Ha, IH.
Qed.

Lemma contains_char_strip c s :
  contains (String c "") s = false -> contains (String c "") (strip s) = false.
Proof. intros Hs. by apply contains_char_rstrip, contains_char_lstrip. Qed.

Lemma split_nonempty sep s : split sep s <> [].
Proof.
  destruct s as [|a s]; [done|]. simpl.
  destruct (Ascii.eqb a sep); [done|]. by destruct (split sep s).
Qed.

Lemma split_pieces_no_sep sep s piece :
  In piece (split sep s) -> contains (String sep "") piece = false.
Proof.
  revert piece. induction s as [|a s IH]; intros piece; cbn [split].
  - by intros [<-|[]].
  - destruct (Ascii.eqb a sep) eqn:Ha.
    + intros [<-|Hin]; [done|by apply IH].
    + destruct (split sep s) as [|piece0 rest] eqn:Hsplit.
      { by destruct (split_nonempty sep s). }
      intros [<-|Hin].
      * rewrite contains_char_cons, Ascii.eqb_sym, Ha. apply IH. by left.
      * apply IH. by right.
Qed.

Lemma split_no_sep sep s :
  contains (String sep "") s = false -> split sep s = [s].
Proof.
  induction s as [|a s IH]; [done|].
  rewrite contains_char_cons. intros [Ha Hs]%orb_false_iff.
  cbn [split]. rewrite Ascii.eqb_sym, Ha. by rewrite (IH Hs).
Qed.

(** *** The ids of a decomposition *)

Lemma clause_task_ids n clauses x :
  x ∈ map task_id (imap (fun i => clause_task (n + i)) clauses) ->
  exists i, x = "task_" +:+ pretty (n + i).
Proof.
  revert n. induction clauses as [|c clauses IH]; intros n; [by intros ?%elem_of_nil|].
  rewrite imap_cons. cbn [map]. intros [->|Hin]%elem_of_cons.
  - by exists 0.
  - rewrite (imap_ext _ (fun i => clause_task (S n + i))) in Hin.
    + apply IH in Hin as [i ->]. exists (S i). do 2 f_equal. lia.
    + intros i y _. simpl. do 2 f_equal. lia.
Qed.

Lemma clause_task_ids_distinct n clauses :
  NoDup (map task_id (imap (fun i => clause_task (n + i)) clauses)).
Proof.
  revert n. induction clauses as [|c clauses IH]; intros n; [constructor|].
  rewrite imap_cons. cbn [map]. apply NoDup_cons.
  rewrite (imap_ext _ (fun i => clause_task (S n + i)));
    [|intros i y _; simpl; do 2 f_equal; lia].
  split; [|apply IH].
  intros [i Heq]%clause_task_ids. simpl in Heq.
  apply (inj (String.app _)), (inj pretty) in Heq. lia.
Qed.

Lemma detect_task_type_tags text :
  In (detect_task_type text) ["code"; "web"; "files"; "talk"].
Proof.
  unfold detect_task_type.
  repeat match goal with |- context [if ?b then _ else _] => destruct b end;
    simpl; tauto.
Qed.

(** X14.  Every sub-task of a decomposition has one of the four
    capabilities "code", "web", "files" and "talk", a description that is
    not empty and holds no full stop, and an id no other sub-task of the
    decomposition has. *)
Theorem decomposition_is_well_formed (text : string) :
  NoDup (map task_id (decompose_collaborative_task text)) /\
  forall task, task ∈ decompose_collaborative_task text ->
    In (agent_type task) ["code"; "web"; "files"; "talk"] /\
    description task <> "" /\
    contains "." (description task) = false.
Proof.
  rewrite decompose_spec. split.
  { apply (clause_task_ids_distinct 0). }
  intros task (i & Hi)%list_elem_of_lookup.
  rewrite list_lookup_imap in Hi.
  destruct (_ !! i) as [clause|] eqn:Hclause; [|done]. injection Hi as <-.
  apply list_elem_of_lookup_2, list_elem_of_In, filter_In in Hclause as [Hin Hne].
  apply in_map_iff in Hin as (piece & <- & Hpiece).
  split; [apply detect_task_type_tags|]. simpl. split.
  - intros Hempty. by rewrite Hempty in Hne.
  - by apply contains_char_strip, (split_pieces_no_sep "."%char text).
Qed.



(** X16.  Pipeline mode on a decomposition is sequential mode on it: the
    sub-tasks have distinct ids and no dependencies, so the sort hands
    them on in the order of their clauses. *)
Theorem pipeline_on_decomposition_is_sequential (text : string) :
  _sort_tasks_by_dependencies (decompose_collaborative_task text)
  = Some (decompose_collaborative_task text) /\
  forall World (clock : Clock World) (self : CollaborativeAgent World) s,
    execute_pipeline self (decompose_collaborative_task text) s
    = Some (execute_sequential self (decompose_collaborative_task text) s).
Proof.
  assert (_sort_tasks_by_dependencies (decompose_collaborative_task text)
          = Some (decompose_collaborative_task text)) as Hsort.
  { apply sort_in_order.
    - rewrite decompose_spec. apply (clause_task_ids_distinct 0).
    - intros before task after Heq dep_id Hdep.
      assert (task ∈ decompose_collaborative_task text) as Hin
        by (rewrite Heq; set_solver).
      rewrite decompose_spec in Hin.
      apply list_elem_of_lookup in Hin as (i & Hi). rewrite list_lookup_imap in Hi.
      destruct (_ !! i); [|done]. injection Hi as <-. by apply elem_of_nil in Hdep. }
  split; [done|]. intros World clock self s. unfold execute_pipeline. by rewrite Hsort.
Qed.

End DecomposerMore.

(** ** The detector: connectives and action words *)

Section DetectorMore.
Import PyStr Detector.

Lemma strong_keywords_are_connectives w :
  In w strong_keywords -> In w collaboration_keywords.
Proof. simpl. intuition. Qed.

Lemma any_in_false words s :
  any_in words s = false <-> forall w, In w words -> contains w s = false.
Proof.
  unfold any_in. split.
  - intros Hnone w Hw. destruct (contains w s) eqn:Hc; [|done].
    assert (existsb (fun w => contains w s) words = true) as Hex
      by (apply existsb_exists; eauto).
    congruence.
  - intros Hall. destruct (existsb _ words) eqn:Hex; [|done].
    apply existsb_exists in Hex as (w & Hw & Hc). by rewrite Hall in Hc.
Qed.


End DetectorMore.

(** ** The capability vote *)

Section VoteFacts.
Import Complexity Vote.

Variable bart : string -> list string -> BartResult.
Variable talk_predict : string -> Prediction.

Lemma capability_filter (p : string * Q) predictions :
  In p (List.filter
          (fun pred => negb (String.eqb (fst pred) "HIGH" || String.eqb (fst pred) "LOW"))
          predictions)
  <-> In p predictions /\ fst p <> "HIGH" /\ fst p <> "LOW".
Proof.
  rewrite filter_In, negb_true_iff, orb_false_iff, !String.eqb_neq. tauto.
Qed.

(** X18.  [llm_router] returns the prediction of highest confidence among
    those whose label is not a complexity label; it raises [IndexError]
    exactly when the classifier predicts nothing but "HIGH" and "LOW", and
    passes on what the classifier raises. *)
Theorem llm_router_best_capability (text : string) :
  match talk_predict text with
  | PredictRaised msg => llm_router talk_predict text = inr (ClassifierError msg)
  | Predicted predictions =>
      (llm_router talk_predict text = inr IndexError <->
       forall p, In p predictions -> fst p = "HIGH" \/ fst p = "LOW") /\
      (forall label confidence,
         llm_router talk_predict text = inl (label, confidence) ->
         In (label, confidence) predictions /\ label <> "HIGH" /\ label <> "LOW" /\
         forall p, In p predictions -> fst p <> "HIGH" -> fst p <> "LOW" ->
           (snd p <= confidence)%Q)
  end.
Proof.
  unfold llm_router. destruct (talk_predict text) as [msg|predictions]; [done|].
  pose proof (sorted_desc_top
                (List.filter
                   (fun pred => negb (String.eqb (fst pred) "HIGH" || String.eqb (fst pred) "LOW"))
                   predictions)) as Htop.
  destruct (sorted_desc _) as [|[best c] rest].
  - split.
    + split; [|done]. intros _ p Hp.
      destruct (String.eqb_spec (fst p) "HIGH") as [|Hh]; [by left|].
      destruct (String.eqb_spec (fst p) "LOW") as [|Hl]; [by right|].
      assert (In p []) as []. rewrite <- Htop. by apply capability_filter.
    + done.
  - destruct Htop as [Hin Hmax]. apply capability_filter in Hin as (Hin & Hh & Hl).
    split.
    + split; [done|]. intros Hall. destruct (Hall _ Hin); simpl in *; congruence.
    + intros label confidence [= <- <-]. do 3 (split; [done|]).
      intros p Hp Hph Hpl. apply (Hmax p). by apply capability_filter.
Qed.

(** X19.  [router_vote] answers "talk" for a text of at most 8 characters
    without asking a classifier.  For a longer text on which both
    classifiers answer, with confidences that are not negative: it raises
    [ZeroDivisionError] when both confidences are zero; otherwise the
    winner is the top label of one of the two classifiers, and it is the
    one of the capability classifier whenever the zero-shot classifier is
    not strictly more confident - a tie goes to the capability
    classifier. *)
Theorem router_vote_rule (text : string) (labels : list string) :
  (len text <= 8 -> router_vote bart talk_predict text labels = inl "talk") /\
  (forall bart_label bart_labels confidence_bart bart_scores llm_label confidence_llm,
     8 < len text ->
     bart text labels
     = BartReturned (bart_label :: bart_labels) (confidence_bart :: bart_scores) ->
     llm_router talk_predict text = inl (llm_label, confidence_llm) ->
     (0 <= confidence_bart)%Q -> (0 <= confidence_llm)%Q ->
     (confidence_bart + confidence_llm == 0 ->
      router_vote bart talk_predict text labels = inr ZeroDivisionError) /\
     (~ confidence_bart + confidence_llm == 0 ->
      (router_vote bart talk_predict text labels = inl bart_label \/
       router_vote bart talk_predict text labels = inl llm_label) /\
      ((confidence_bart <= confidence_llm)%Q ->
       router_vote bart talk_predict text labels = inl llm_label))).
Proof.
  split.
  { intros Hshort. unfold router_vote.
    by rewrite (proj2 (Nat.leb_le _ _) Hshort). }
  intros bart_label bart_labels cb bart_scores llm_label cl Hlong Hbart Hllm Hcb Hcl.
  unfold router_vote. rewrite (proj2 (Nat.leb_gt _ _) Hlong), Hbart, Hllm.
  cbn [first_item]. split.
  - intros Hzero. by rewrite (Qeq_eq_bool _ _ Hzero).
  - intros Hpos. destruct (Qeq_bool (cb + cl) 0) eqn:Hz.
    { by apply Qeq_bool_eq in Hz. }
    split.
    + destruct (Qlt_bool _ _); [by left|by right].
    + intros Hle. destruct (Qlt_bool (cl / (cb + cl)) (cb / (cb + cl))) eqn:Hlt; [|done].
      apply Qlt_bool_iff in Hlt. exfalso. apply (Qlt_not_le _ _ Hlt).
      unfold Qdiv. apply Qmult_le_compat_r; [done|].
      apply Qinv_le_0_compat.
      rewrite <- (Qplus_0_r 0). by apply Qplus_le_compat.
Qed.

End VoteFacts.

Section VoteExamples.
Import Complexity Vote.

Lemma router_vote_rule_witness :
  len "今天天气怎么样" = 7 /\
  router_vote (fun _ _ => BartReturned ["code"; "talk"] [1 # 2; 1 # 4])
              (fun _ => Predicted [("HIGH", 9 # 10); ("web", 1 # 2); ("talk", 1 # 10)])
              "find me a cheap 4090" ["code"; "talk"; "web"]
  = inl "web".
Proof.
  split; [reflexivity|].
  refine (proj2 (proj2 (proj2 (router_vote_rule
           (fun _ _ => BartReturned ["code"; "talk"] [1 # 2; 1 # 4])
           (fun _ => Predicted [("HIGH", 9 # 10); ("web", 1 # 2); ("talk", 1 # 10)])
           "find me a cheap 4090" ["code"; "talk"; "web"])
           "code" ["talk"] (1 # 2) [1 # 4] "web" (1 # 2) _ _ _ _ _) _) _).
  - vm_compute. lia.
  - reflexivity.
  - by vm_compute.
  - by vm_compute.
  - by vm_compute.
  - by vm_compute.
  - by vm_compute.
Defined.

End VoteExamples.

(** ** The router: selection, first sentence, and the collaborative path *)

Section RouterMore.
Import PyStr Detector Decomposer SharedContext Scheduler Router.
Context {World : Type} `{Clock World}.
Variable self : AgentRouter World.

(** X20.  [select_agent] only ever hands out a worker of the router.
    With a single worker it is that one; otherwise the text is not judged
    collaborative and the worker is one of type "planner_agent" when the
    complexity of the translated first sentence is HIGH, and else one
    whose role is the label the vote returned.  It answers [None]
    only when no worker fits: no planner for a HIGH text, or a voted label
    that is no worker's role. *)
Theorem select_agent_hands_out_router_agents (text : string) :
  let sentence := translate self (find_first_sentence text) (detect_language self text) in
  let complexity := Complexity.estimate_complexity (complexity_predict self) sentence in
  let labels := map role (router_agents self) in
  (forall a, select_agent self text = SelectedAgent a ->
     In a (router_agents self) /\
     (router_agents self = [a] \/
      (detect_collaborative_task text = false /\
       ((complexity = "HIGH" /\ type_ a = "planner_agent") \/
        (complexity <> "HIGH" /\ router_vote self sentence labels = Some (role a)))))) /\
  (select_agent self text = SelectedNone ->
   detect_collaborative_task text = false /\
   ((complexity = "HIGH" /\
     forall a, In a (router_agents self) -> type_ a <> "planner_agent") \/
    (complexity <> "HIGH" /\
     exists label, router_vote self sentence labels = Some label /\
       forall a, In a (router_agents self) -> role a <> label))).
Proof.
  intros sentence complexity labels. unfold select_agent, find_planner_agent.
  fold sentence. fold labels. fold complexity.
  destruct (router_agents self) as [|a0 [|a1 rest]] eqn:Hagents.
  { split; done. }
  { split; [|done]. intros a [= <-]. split; [by left|by left]. }
  destruct (detect_collaborative_task text); [split; done|].
  destruct (String.eqb complexity "HIGH") eqn:Hhigh.
  - apply String.eqb_eq in Hhigh.
    destruct (List.find _ (a0 :: a1 :: rest)) as [planner|] eqn:Hfind.
    + split; [|done]. intros a [= <-]. apply find_some in Hfind as [Hin Htype].
      apply String.eqb_eq in Htype. split; [done|]. right. split; [done|]. by left.
    + split; [done|]. intros _. split; [done|]. left. split; [done|].
      intros a Ha Htype. apply (find_none _ _ Hfind) in Ha.
      apply String.eqb_neq in Ha. done.
  - apply String.eqb_neq in Hhigh.
    destruct (router_vote self sentence labels) as [best_agent|]; [|split; done].
    destruct (List.find _ (a0 :: a1 :: rest)) as [chosen|] eqn:Hfind.
    + split; [|done]. intros a [= <-]. apply find_some in Hfind as [Hin Hrole].
      apply String.eqb_eq in Hrole. split; [done|]. right. split; [done|]. right.
      split; [done|]. by rewrite Hrole.
    + split; [done|]. intros _. split; [done|]. right. split; [done|].
      exists best_agent. split; [done|].
      intros a Ha Hrole. apply (find_none _ _ Hfind) in Ha.
      apply String.eqb_neq in Ha. congruence.
Qed.


Lemma registry_lookup (agents_list : list (RoutedAgent World))
      (m : gmap string (Agent World)) (tag : string) :
  foldl (fun d a => <[role a := process a]> d) m agents_list !! tag = None ->
  tag ∉ map role agents_list.
Proof.
  revert m. induction agents_list as [|a l IH]; intros m Hnone; [apply not_elem_of_nil|].
  simpl in *. apply not_elem_of_cons. split; [|by eapply IH].
  intros ->. clear IH. revert Hnone.
  assert (is_Some (<[role a := process a]> m !! role a)) as Hsome
    by (rewrite lookup_insert_eq; by eexists).
  revert Hsome. generalize (<[role a := process a]> m). clear m.
  induction l as [|b l IH]; intros m [p Hp] Hnone; simpl in *; [congruence|].
  apply (IH (<[role b := process b]> m)); [|done].
  destruct (decide (role b = role a)) as [->|Hne].
  - rewrite lookup_insert_eq. by eexists.
  - rewrite lookup_insert_ne by done. by eexists.
Qed.

(** X22.  When the router has a worker for each of the roles "code",
    "web", "files" and "talk", every sub-task of every decomposition finds
    its worker in the registry of the collaborative scheduler: none fails
    as "Agent type ... not available". *)
Theorem decomposition_finds_workers (text : string) (task : AgentTask) :
  (forall tag, In tag ["code"; "web"; "files"; "talk"] ->
     tag ∈ map role (router_agents self)) ->
  task ∈ decompose_collaborative_task text ->
  is_Some (agents (collaborative_agent self) !! agent_type task).
Proof.
  intros Hroles Htask.
  assert (In (agent_type task) ["code"; "web"; "files"; "talk"]) as Htag.
  { rewrite decompose_spec in Htask.
    apply list_elem_of_lookup in Htask as (i & Hi). rewrite list_lookup_imap in Hi.
    destruct (_ !! i); [|done]. injection Hi as <-. apply detect_task_type_tags. }
  destruct (agents (collaborative_agent self) !! agent_type task) eqn:Hlookup;
    [by eexists|].
  apply registry_lookup in Hlookup. destruct Hlookup. by apply Hroles.
Qed.

Lemma sequential_step_ids task s :
  res_task_id (sequential_step (collaborative_agent self) task s).1.1 = task_id task.
Proof.
  destruct (sequential_step_cases (collaborative_agent self) task s) as [-> | ->]; simpl.
  - apply execute_task_ids.
  - apply (execute_task_ids _ (set_retry_count (retry_count task + 1) task)).
Qed.

Lemma execute_sequential_ids tasks s :
  map res_task_id (execute_sequential (collaborative_agent self) tasks s).1.1
  = map task_id tasks.
Proof.
  revert s. induction tasks as [|task rest IH]; intros s; [done|].
  rewrite execute_sequential_cons.
  pose proof (sequential_step_ids task s) as Hid.
  destruct (sequential_step _ task s) as [[result task'] s1].
  specialize (IH s1).
  destruct (execute_sequential _ rest s1) as [[results tasks'] s2].
  simpl in *. by rewrite Hid, IH.
Qed.

(** X23.  For a text the detector judges collaborative, the wrapper that
    [select_agent] hands out always answers with results, never with
    [None]: one result per sub-task of the decomposition, in order and
    under its id, and at least one. *)
Theorem flagged_text_gets_results (order : list nat) (text : string) (s : Sched World) :
  detect_collaborative_task text = true ->
  exists results s',
    collaborative_process self order text s = Some (Some (map Some results), s') /\
    map res_task_id results = map task_id (decompose_collaborative_task text) /\
    results <> [].
Proof.
  intros Hflag%detect_has_clause.
  unfold collaborative_process, execute_collaborative_task.
  pose proof (execute_sequential_ids (decompose_collaborative_task text) s) as Hids.
  destruct (decompose_collaborative_task text) as [|task tasks] eqn:Hdec; [done|].
  destruct (execute_sequential _ (task :: tasks) s) as [[results tasks'] s'].
  exists results, s'. split; [done|]. split; [done|].
  intros ->. done.
Qed.

End RouterMore.

Section RouterMoreExamples.
Import Decomposer SharedContext Scheduler Router Examples.
#[local] Existing Instance world_clock.

Lemma flagged_text_gets_results_witness :
  exists results s',
    collaborative_process router [] "Write code, search web, and save file" initial
    = Some (Some (map Some results), s') /\
    map res_task_id results = ["task_0"].
Proof.
  destruct (flagged_text_gets_results router [] "Write code, search web, and save file"
              initial) as (results & s' & Hrun & Hids & _).
  - by vm_compute.
  - exists results, s'. split; [exact Hrun|exact Hids].
Defined.

Lemma decomposition_finds_workers_witness :
  is_Some (agents (collaborative_agent
                     (mkAgentRouter Q
                        [ mkRoutedAgent Q "Coder" "code" "code_agent"
                            (worker 1 (Returned "print(42)" "wrote the script" true));
                          mkRoutedAgent Q "Browser" "web" "browser_agent"
                            (worker 2 (Raised "connection refused"));
                          mkRoutedAgent Q "Filer" "files" "file_agent"
                            (worker 3 (Returned "" "nothing found" false));
                          mkRoutedAgent Q "Jarvis" "talk" "casual_agent"
                            (worker 1 (Returned "hello" "greeted" true)) ]
                        (fun _ => Complexity.Predicted [])
                        (fun _ => "en") (fun text _ => text) (fun _ _ => None)))
           !! "web").
Proof.
  apply (decomposition_finds_workers _ "Write a script. Search the web for it."
           (clause_task 1 "Search the web for it")).
  - intros tag Htag. apply list_elem_of_In. simpl in *. intuition.
  - apply list_elem_of_In. vm_compute. tauto.
Defined.

End RouterMoreExamples.

(** ** The contract of one call of [execute_task] *)

Section ExecuteTaskContract.
Import SharedContext Scheduler.
Context {World : Type} `{Clock World}.
Variable self : CollaborativeAgent World.

(** X24.  One call of [execute_task] always hands back a result, under
    the id and the capability of its task.  The result carries an error
    message exactly when no worker is registered for the capability or
    the worker raised; it is then a failure with an empty answer and an
    empty reasoning, and the shared context is as it was.  Otherwise the
    answer and the success flag of the result - also the flag of a worker
    that reports no success - are written under the two keys of the task.
    No other key of the shared context changes in either case. *)
Theorem execute_task_contract (task : AgentTask) (context_data : Dict) (s : Sched World) :
  let r := (execute_task self task context_data s).1 in
  let data := shared_context (execute_task self task context_data s).2 in
  res_task_id r = task_id task /\
  res_agent_type r = agent_type task /\
  (error_message r <> None <->
   worker_outcome self task context_data s = None \/
   exists msg, worker_outcome self task context_data s = Some (Raised msg)) /\
  (error_message r <> None ->
   success r = false /\ result r = "" /\ reasoning r = "" /\
   data = shared_context s) /\
  (error_message r = None ->
   get (result_key task) data = Some (VStr (result r)) /\
   get (success_key task) data = Some (VBool (success r))) /\
  (forall key, key <> result_key task -> key <> success_key task ->
     get key data = get key (shared_context s)).
Proof.
  intros r data. subst r data.
  destruct (execute_task_ids self task context_data s) as [Hid Htype].
  split; [exact Hid|]. split; [exact Htype|].
  split; [|split; [|split]].
  - destruct (worker_outcome self task context_data s) as [[msg|answer reason ok]|] eqn:Hout.
    + destruct (execute_task_raised self task context_data s msg Hout) as (t & -> & _).
      split; [intros _; right; by exists msg|done].
    + destruct (execute_task_returned self task context_data s answer reason ok Hout)
        as (t & -> & _).
      split; [done|]. intros [|[msg ?]]; done.
    + destruct (execute_task_unavailable self task context_data s Hout) as (t & -> & _).
      split; [intros _; by left|done].
  - intros Herr. split; [|split; [|split]];
      [| | |by apply execute_task_failed_writes_nothing].
    all: destruct (worker_outcome self task context_data s)
      as [[msg|answer reason ok]|] eqn:Hout.
    all: try (destruct (execute_task_raised self task context_data s msg Hout)
                as (t & Hr & _); rewrite Hr in Herr |- *; done).
    all: try (destruct (execute_task_unavailable self task context_data s Hout)
                as (t & Hr & _); rewrite Hr in Herr |- *; done).
    all: destruct (execute_task_returned self task context_data s answer reason ok Hout)
           as (t & Hr & _); rewrite Hr in Herr; done.
  - apply execute_task_writes.
  - intros key. apply execute_task_frame.
Qed.

End ExecuteTaskContract.
